(** * Signaling relay for WebRTC peers: model and properties

    The repository holds three successive iterations of one Bun server:

    - [app_ts]        : [src/app.ts] (rooms and signal relay only);
    - [part_000_tail] : second file of [src/unnamed/part_000] (lines 235-434),
                        which adds the pairing handshake;
    - [part_000]      : first file of [src/unnamed/part_000] (lines 1-234),
                        which adds identity resumption from the [uid] cookie
                        and deletes rooms that become empty.

    The handlers [fetch], [websocket.open], [websocket.message] and
    [websocket.close] are embedded as functions on an explicit server state;
    frames written to sockets are returned as a list of effects.  Console
    logging is left out.  Inbound frames are taken after [JSON.parse], as
    values of the [PeerMessage] union. *)

From Stdlib Require Import ZArith Ascii String.
From stdpp Require Import base gmap sets list strings.

Local Open Scope Z_scope.
Local Open Scope string_scope.

(** ** Data *)

Inductive Variant := app_ts | part_000 | part_000_tail.

(** The handshake cases exist from the second iteration on. *)
Definition has_handshake (v : Variant) : bool :=
  match v with app_ts => false | _ => true end.

(** Only the last iteration deletes a room whose member set became empty. *)
Definition deletes_empty_rooms (v : Variant) : bool :=
  match v with part_000 => true | _ => false end.

(** Only the last iteration reads the peer identifier from the [uid] cookie. *)
Definition reads_uid_cookie (v : Variant) : bool :=
  match v with part_000 => true | _ => false end.

(** [interface ServerPeer]: the [data] object attached to a socket.  [rooms]
    is a JS [Set<string>], kept as the list of its elements in insertion
    order; [code] is [undefined] until the first [handshake-begin]. *)
Record ServerPeer := mkServerPeer {
  peerId : string;
  rooms : list string;
  lastPing : Z;
  code : option Z
}.

(** [type PeerMessage]; [OtherMessage] stands for a frame whose [type] is
    none of the known tags. *)
Inductive PeerMessage :=
| SimplePeerInitMessage (yourPeerId : string)
| SimplePeerJoinMessage (room : string)
| SimplePeerJoinedMessage (otherPeerIds : list string)
| SimplePeerSignalMessage (room senderPeerId receiverPeerId data : string)
| SimplePeerPingMessage
| HandshakeInitMessage
| HandshakeResponseMessage (yourId : string) (code : Z)
| HandshakeJoinMessage (code : Z)
| HandshakeCompleteMessage (yourId otherId : string)
| OtherMessage (type : string).

(** What a handler does to the outside: [ws.send], [server.publish],
    [ws.close(undefined, reason)]. *)
Inductive Effect :=
| send (ws : nat) (msg : PeerMessage)
| publish (topic : string) (msg : PeerMessage)
| ws_close (ws : nat) (reason : string).

(** The module-level maps, the [data] object of every socket created by
    [server.upgrade] (sockets are named by natural numbers), and the topic
    subscriptions that Bun keeps for [ws.subscribe] / [server.publish]. *)
Record Server := mkServer {
  sockets : gmap nat ServerPeer;
  topics : gset (nat * string);
  peerById : gmap string nat;
  peersByRoom : gmap string (list string);
  peerByHandshake : gmap Z nat
}.

Definition initial : Server :=
  {| sockets := ∅; topics := ∅; peerById := ∅; peersByRoom := ∅;
     peerByHandshake := ∅ |}.

(** Result of running a handler.  [Looping]: the [do ... while] of
    [handshake-begin] is still running after all the supplied results of
    [Math.random()].  [NoSocket]: the handle names no socket. *)
Inductive Outcome :=
| Returned (st : Server) (out : list Effect)
| Looping
| NoSocket.

(** ** JS [Set<string>] operations on insertion-ordered lists *)

Definition Set_add (x : string) (s : list string) : list string :=
  if decide (x ∈ s) then s else s ++ [x].

Definition Set_delete (x : string) (s : list string) : list string :=
  filter (λ y, y ≠ x) s.

(** ** State updates *)

Definition set_socket (ws : nat) (p : ServerPeer) (st : Server) : Server :=
  {| sockets := <[ws := p]> (sockets st); topics := topics st;
     peerById := peerById st; peersByRoom := peersByRoom st;
     peerByHandshake := peerByHandshake st |}.

Definition set_topics (t : gset (nat * string)) (st : Server) : Server :=
  {| sockets := sockets st; topics := t;
     peerById := peerById st; peersByRoom := peersByRoom st;
     peerByHandshake := peerByHandshake st |}.

Definition set_peerById (m : gmap string nat) (st : Server) : Server :=
  {| sockets := sockets st; topics := topics st;
     peerById := m; peersByRoom := peersByRoom st;
     peerByHandshake := peerByHandshake st |}.

Definition set_peersByRoom (m : gmap string (list string)) (st : Server) : Server :=
  {| sockets := sockets st; topics := topics st;
     peerById := peerById st; peersByRoom := m;
     peerByHandshake := peerByHandshake st |}.

Definition set_peerByHandshake (m : gmap Z nat) (st : Server) : Server :=
  {| sockets := sockets st; topics := topics st;
     peerById := peerById st; peersByRoom := peersByRoom st;
     peerByHandshake := m |}.

Definition with_rooms (r : list string) (p : ServerPeer) : ServerPeer :=
  {| peerId := peerId p; rooms := r; lastPing := lastPing p; code := code p |}.

Definition with_lastPing (t : Z) (p : ServerPeer) : ServerPeer :=
  {| peerId := peerId p; rooms := rooms p; lastPing := t; code := code p |}.

Definition with_code (c : Z) (p : ServerPeer) : ServerPeer :=
  {| peerId := peerId p; rooms := rooms p; lastPing := lastPing p;
     code := Some c |}.

(** [peer.lastPing = Date.now()], the first statement of [message]. *)
Definition touch (ws : nat) (now : Z) (st : Server) : Server :=
  match sockets st !! ws with
  | Some p => set_socket ws (with_lastPing now p) st
  | None => st
  end.

(** Member set of a room: the entry of the Room Index, empty when there is
    none. *)
Definition members (st : Server) (roomId : string) : list string :=
  default [] (peersByRoom st !! roomId).

(** Sockets that [server.publish] on a topic reaches. *)
Definition subscribed (st : Server) (ws : nat) (topic : string) : Prop :=
  (ws, topic) ∈ topics st.

(** ** The pairing code generator

    [do { code = Math.floor(Math.random() * 9999) } while (peerByHandshake.has(code))].

    [Math.random()] returns a binary64 number of the interval [0, 1).  Such
    a number is [mantissa * 2^(-exponent)] with a mantissa of at most 53
    bits and an exponent between 53 and 1074. *)

Record double := mkDouble { mantissa : Z; exponent : Z }.

Definition unit_interval (r : double) : Prop :=
  0 ≤ mantissa r < (2 ^ 53)%Z ∧ (53 ≤ exponent r ≤ 1074)%Z.

(** The binary64 number [num / 2^k], for [0 ≤ num < 2^k] and [k ≤ 53]. *)
Definition dyadic (num k : Z) : double :=
  {| mantissa := num * (2 ^ (53 - k))%Z; exponent := 53 |}.

(** Rounding of a non-negative integer to 53 significant bits, to nearest
    with ties to even: what an IEEE 754 binary64 operation does to the
    significand of its exact result. *)
Definition round_to_53_bits (P : Z) : Z :=
  (let bits := Z.log2 P + 1 in
   if bits <=? 53 then P
   else
     let s := bits - 53 in
     let q := P / 2 ^ s in
     let rest := P mod 2 ^ s in
     let half := 2 ^ (s - 1) in
     let q := if (half <? rest) || ((rest =? half) && Z.odd q) then q + 1 else q in
     q * 2 ^ s)%Z.

(** [Math.floor(r * 9999)]: the binary64 product of [r] and 9999 is the exact
    product [mantissa * 9999 * 2^(-exponent)] with its significand rounded
    (for [r] in the unit interval the product neither overflows nor loses
    bits to underflow); [Math.floor] then takes the integer part. *)
Definition random_code (r : double) : Z :=
  round_to_53_bits (mantissa r * 9999) / (2 ^ exponent r)%Z.

(** [random] lists the values that the successive calls of [Math.random()]
    return. *)
Fixpoint generate_code (tbl : gmap Z nat) (random : list double) : option Z :=
  match random with
  | [] => None
  | r :: random' =>
      let code := random_code r in
      if decide (is_Some (tbl !! code)) then generate_code tbl random'
      else Some code
  end.

(** ** Handlers *)

Section Handlers.

(** [uuid.validate] of the [uuid] package. *)
Variable validate : string → bool.

Variable v : Variant.

(** [case "join"], after the identifier passed [uuid.validate]. *)
Definition case_join (ws : nat) (peer : ServerPeer) (roomId : string)
    (st : Server) : Outcome :=
  (* peer.rooms.add(roomId) *)
  let st := set_socket ws (with_rooms (Set_add roomId (rooms peer)) peer) st in
  (* let room = peersByRoom.get(roomId); if (!room) { room = new Set(); ... } *)
  let (room, st) :=
    match peersByRoom st !! roomId with
    | Some room => (room, st)
    | None => ([], set_peersByRoom (<[roomId := []]> (peersByRoom st)) st)
    end in
  (* room.add(peerId): the set stored in the map is updated in place *)
  let room := Set_add (peerId peer) room in
  let st := set_peersByRoom (<[roomId := room]> (peersByRoom st)) st in
  (* ws.subscribe(roomId) *)
  let st := set_topics ({[ (ws, roomId) ]} ∪ topics st) st in
  (* server.publish(roomId, { type: "joined", otherPeerIds: Array.from(room) }) *)
  Returned st [publish roomId (SimplePeerJoinedMessage room)].

(** [case "signal"]. *)
Definition case_signal (peer : ServerPeer) (message : PeerMessage)
    (senderPeerId receiverPeerId : string) (st : Server) : Outcome :=
  if decide (senderPeerId ≠ peerId peer) then Returned st []
  else
    match peerById st !! receiverPeerId with
    | Some receiver => Returned st [send receiver message]
    | None => Returned st []
    end.

(** [case "handshake-begin"]. *)
Definition case_handshake_begin (ws : nat) (peer : ServerPeer)
    (random : list double) (st : Server) : Outcome :=
  match generate_code (peerByHandshake st) random with
  | None => Looping
  | Some c =>
      (* peer.code = code *)
      let st := set_socket ws (with_code c peer) st in
      (* peerByHandshake.set(code, ws) *)
      let st := set_peerByHandshake (<[c := ws]> (peerByHandshake st)) st in
      Returned st [send ws (HandshakeResponseMessage (peerId peer) c)]
  end.

(** [case "handshake-join"]. *)
Definition case_handshake_join (ws : nat) (me : ServerPeer) (c : Z)
    (st : Server) : Outcome :=
  match peerByHandshake st !! c with
  | None => Returned st []
  | Some peer =>
      match sockets st !! peer with
      | None => NoSocket
      | Some peer_data =>
          Returned
            (set_peerByHandshake (delete c (peerByHandshake st)) st)
            [ send ws (HandshakeCompleteMessage (peerId me) (peerId peer_data));
              send peer (HandshakeCompleteMessage (peerId peer_data) (peerId me)) ]
      end
  end.

(** Body of [peer.rooms.forEach] in [websocket.close]. *)
Definition leave_room (ws : nat) (peerId : string) (st : Server)
    (roomId : string) : Server :=
  let unsubscribe st := set_topics (topics st ∖ {[ (ws, roomId) ]}) st in
  match peersByRoom st !! roomId with
  | None => unsubscribe st
  | Some room =>
      (* room?.delete(peerId) *)
      let room := Set_delete peerId room in
      let st := set_peersByRoom (<[roomId := room]> (peersByRoom st)) st in
      let st := unsubscribe st in
      (* const deleteRoom = room?.size === 0; if (deleteRoom) peersByRoom.delete(roomId) *)
      if deletes_empty_rooms v && bool_decide (room = [])
      then set_peersByRoom (delete roomId (peersByRoom st)) st
      else st
  end.

(** [websocket.close(ws, code, reason)]. *)
Definition websocket_close (ws : nat) (st : Server) : Outcome :=
  match sockets st !! ws with
  | None => NoSocket
  | Some peer =>
      let st := foldl (leave_room ws (peerId peer)) st (rooms peer) in
      let st := set_peerById (delete (peerId peer) (peerById st)) st in
      (* cleanup from unfinished handshake: peerByHandshake.delete(peer.code) *)
      let st :=
        if has_handshake v then
          match code peer with
          | Some c => set_peerByHandshake (delete c (peerByHandshake st)) st
          | None => st
          end
        else st in
      Returned st []
  end.

(** [websocket.message(ws, msg)].  [ws.close] called from inside the handler
    runs the [close] callback at once, so the rejected [join] returns with
    the sender's disconnect already done. *)
Definition websocket_message (now : Z) (random : list double) (ws : nat)
    (message : PeerMessage) (st : Server) : Outcome :=
  match sockets st !! ws with
  | None => NoSocket
  | Some peer =>
      let peer := with_lastPing now peer in
      let st := set_socket ws peer st in
      match message with
      | SimplePeerJoinMessage roomId =>
          if validate roomId then case_join ws peer roomId st
          else
            (* ws.close(undefined, "Invalid ID"); return;
               the close callback runs before ws.close returns *)
            match websocket_close ws st with
            | Returned st out => Returned st (ws_close ws "Invalid ID" :: out)
            | o => o
            end
      | SimplePeerSignalMessage _ senderPeerId receiverPeerId _ =>
          case_signal peer message senderPeerId receiverPeerId st
      | SimplePeerPingMessage => Returned st []
      | HandshakeInitMessage =>
          if has_handshake v then case_handshake_begin ws peer random st
          else Returned st []
      | HandshakeJoinMessage c =>
          if has_handshake v then case_handshake_join ws peer c st
          else Returned st []
      | _ => Returned st []
      end
  end.

(** [websocket.open(ws)]. *)
Definition websocket_open (ws : nat) (st : Server) : Outcome :=
  match sockets st !! ws with
  | None => NoSocket
  | Some peer =>
      Returned (set_peerById (<[peerId peer := ws]> (peerById st)) st)
               [send ws (SimplePeerInitMessage (peerId peer))]
  end.

(** [fetch(req, server)] when [server.upgrade] succeeds: a new socket with a
    fresh [data] object.  [cookie] is [cookies.get('uid')], [uuid4] the value
    [uuid.v4()] would return, [now] the value of [Date.now()].  The response
    headers and the reply to a request that is not upgraded are left out. *)
Definition fetch (cookie : option string) (uuid4 : string) (now : Z)
    (st : Server) : Server * nat :=
  let uid :=
    if reads_uid_cookie v then
      match cookie with
      | Some c => if decide (c = "") then uuid4 else c
      | None => uuid4
      end
    else uuid4 in
  let ws := fresh (dom (sockets st)) in
  (set_socket ws {| peerId := uid; rooms := []; lastPing := now; code := None |} st,
   ws).

(** ** Runs of the server

    The callbacks run one at a time.  An event carries what the environment
    supplies to the callback: the socket, the decoded frame, the clock and the
    results of [Math.random()].  Any callback may follow any other, which
    covers every order in which the runtime can call them. *)

Inductive Event :=
| Fetch (cookie : option string) (uuid4 : string) (now : Z)
| Open (ws : nat)
| Message (ws : nat) (now : Z) (random : list double) (msg : PeerMessage)
| Close (ws : nat).

Definition handle (ev : Event) (st : Server) : Outcome :=
  match ev with
  | Fetch cookie uuid4 now => Returned (fetch cookie uuid4 now st).1 []
  | Open ws => websocket_open ws st
  | Message ws now random msg => websocket_message now random ws msg st
  | Close ws => websocket_close ws st
  end.

Fixpoint run (evs : list Event) (st : Server) : Outcome :=
  match evs with
  | [] => Returned st []
  | ev :: evs' =>
      match handle ev st with
      | Returned st' out =>
          match run evs' st' with
          | Returned st'' out' => Returned st'' (out ++ out')
          | o => o
          end
      | o => o
      end
  end.

(** States the server can be in between two callbacks. *)
Inductive reachable : Server → Prop :=
| reachable_initial : reachable initial
| reachable_step st ev st' out :
    reachable st → handle ev st = Returned st' out → reachable st'.

End Handlers.

(** ** A concrete [uuid.validate]

    The handlers are parametric in [uuid.validate]; this instance is the
    test of the [uuid] package: five groups of hexadecimal digits of lengths
    8-4-4-4-12 with a version digit in 1-8 and a variant digit in 8, 9, a, b,
    or the nil or max identifier; letters in either case. *)

Definition hex_digit (c : ascii) : bool :=
  let n := nat_of_ascii c in
  ((48 <=? n) && (n <=? 57) || (97 <=? n) && (n <=? 102)
   || (65 <=? n) && (n <=? 70))%nat.

Definition version_digit (c : ascii) : bool :=
  let n := nat_of_ascii c in ((49 <=? n) && (n <=? 56))%nat.

Definition variant_digit (c : ascii) : bool :=
  let n := nat_of_ascii c in
  ((n =? 56) || (n =? 57) || (n =? 97) || (n =? 98) || (n =? 65) || (n =? 66))%nat.

Definition dash (c : ascii) : bool := (nat_of_ascii c =? 45)%nat.

Fixpoint matches (pat : list (ascii → bool)) (s : string) : bool :=
  match pat, s with
  | [], EmptyString => true
  | p :: pat', String c s' => p c && matches pat' s'
  | _, _ => false
  end.

Definition uuid_pattern : list (ascii → bool) :=
  replicate 8 hex_digit ++ [dash] ++ replicate 4 hex_digit ++ [dash]
  ++ [version_digit] ++ replicate 3 hex_digit ++ [dash]
  ++ [variant_digit] ++ replicate 3 hex_digit ++ [dash]
  ++ replicate 12 hex_digit.

Definition lower (c : ascii) : ascii :=
  let n := nat_of_ascii c in
  if ((65 <=? n) && (n <=? 90))%nat then ascii_of_nat (n + 32) else c.

Fixpoint lowercase (s : string) : string :=
  match s with
  | EmptyString => EmptyString
  | String c s' => String (lower c) (lowercase s')
  end.

Definition uuid_validate (s : string) : bool :=
  matches uuid_pattern s
  || bool_decide (s = "00000000-0000-0000-0000-000000000000")
  || bool_decide (lowercase s = "ffffffff-ffff-ffff-ffff-ffffffffffff").

(** ** Frames and state as seen from outside *)


(** Two states that differ at most in [lastPing] timestamps: same Registry,
    Room Index, Pairing Table and subscriptions, and every socket keeps its
    identifier, room set and code. *)
Definition same_but_lastPing (st st' : Server) : Prop :=
  topics st' = topics st ∧ peerById st' = peerById st
  ∧ peersByRoom st' = peersByRoom st
  ∧ peerByHandshake st' = peerByHandshake st
  ∧ with_lastPing 0 <$> sockets st' = with_lastPing 0 <$> sockets st.

(** Codes carried by the [handshake-response] frames of an output. *)
Definition issued_codes (out : list Effect) : list Z :=
  omap (λ e, match e with
             | send _ (HandshakeResponseMessage _ c) => Some c
             | _ => None
             end) out.

(** ** Predicates on events and states *)

(** Events that may remove an entry of the Pairing Table: a
    [handshake-join], a disconnect, and a [join] that is rejected (which
    disconnects its sender). *)
Definition removes_code (validate : string → bool) (ev : Event) : Prop :=
  match ev with
  | Message _ _ _ (HandshakeJoinMessage _) | Close _ => True
  | Message _ _ _ (SimplePeerJoinMessage room) => validate room = false
  | _ => False
  end.

(** Every socket held by the Registry or by the Pairing Table has its
    [data] object. *)
Definition handles_valid (st : Server) : Prop :=
  (∀ pid w, peerById st !! pid = Some w → is_Some (sockets st !! w))
  ∧ (∀ c w, peerByHandshake st !! c = Some w → is_Some (sockets st !! w)).

(** Events that remove no entry of the Pairing Table and whose
    [Math.random()] results lie in the unit interval. *)
Definition keeps_pending (validate : string → bool) (ev : Event) : Prop :=
  match ev with
  | Message _ _ random HandshakeInitMessage => Forall unit_interval random
  | Message _ _ _ (HandshakeJoinMessage _) => False
  | Message _ _ _ (SimplePeerJoinMessage room) => validate room = true
  | Close _ => False
  | _ => True
  end.

(** The retries of [handshake-begin] are capped when some number
    of draws is always enough for the handler to leave its loop. *)
Definition retries_capped (validate : string → bool) (v : Variant) : Prop :=
  ∃ cap : nat,
    ∀ st ws now random,
      is_Some (sockets st !! ws) →
      Forall unit_interval random →
      (cap ≤ length random)%nat →
      websocket_message validate v now random ws HandshakeInitMessage st
        ≠ Looping.

(** Member sets hold no identifier twice, and in the iteration that deletes
    emptied rooms no entry of the Room Index is empty. *)
Definition rooms_wf (v : Variant) (st : Server) : Prop :=
  ∀ roomId room,
    peersByRoom st !! roomId = Some room →
    NoDup room ∧ (deletes_empty_rooms v = true → room ≠ []).

(** Frames that the [switch] of [message] does nothing with: [ping], the
    server-to-client types and unknown types (the [default] case) and, in
    [src/app.ts], the two handshake types. *)
Definition ignored (v : Variant) (msg : PeerMessage) : Prop :=
  match msg with
  | SimplePeerJoinMessage _ | SimplePeerSignalMessage _ _ _ _ => False
  | HandshakeInitMessage | HandshakeJoinMessage _ => has_handshake v = false
  | _ => True
  end.

(** Effects that send a frame of the pairing handshake. *)
Definition handshake_frame (e : Effect) : Prop :=
  match e with
  | send _ (HandshakeResponseMessage _ _)
  | send _ (HandshakeCompleteMessage _ _)
  | publish _ (HandshakeResponseMessage _ _)
  | publish _ (HandshakeCompleteMessage _ _) => True
  | _ => False
  end.

(** Every subscription and every roster entry goes back to a socket that
    joined the room: a subscribed socket has the room in its room set, and
    an identifier in a member set is the identifier of some socket that has
    the room in its room set. *)
Definition membership_backed (st : Server) : Prop :=
  (∀ ws r, subscribed st ws r →
     ∃ p, sockets st !! ws = Some p ∧ r ∈ rooms p)
  ∧ (∀ r x, x ∈ members st r →
       ∃ ws p, sockets st !! ws = Some p ∧ peerId p = x ∧ r ∈ rooms p).

(** The Registry maps an identifier only to a socket that carries it. *)
Definition registry_names_owner (st : Server) : Prop :=
  ∀ pid ws, peerById st !! pid = Some ws →
    ∃ p, sockets st !! ws = Some p ∧ peerId p = pid.










(** ** Example states and runs *)

Example example_room : string := "6ba7b810-9dad-41d1-80b4-00c04fd430c8".

(** A state with one connected peer ["A"] on socket 0 that has joined
    [example_room], as left by [fetch], [open] and a [join] frame. *)
Example one_member : Server :=
  {| sockets := {[ 0%nat := {| peerId := "A"; rooms := [example_room];
                               lastPing := 1; code := None |} ]};
     topics := {[ (0%nat, example_room) ]};
     peerById := {[ "A" := 0%nat ]};
     peersByRoom := {[ example_room := ["A"] ]};
     peerByHandshake := ∅ |}.

(** Two connected peers ["A"] (socket 0) and ["B"] (socket 1); ["A"] owns the
    pending pairing code 4999. *)
Example two_peers : Server :=
  {| sockets := {[ 0%nat := {| peerId := "A"; rooms := []; lastPing := 1;
                               code := Some 4999 |};
                   1%nat := {| peerId := "B"; rooms := []; lastPing := 2;
                               code := None |} ]};
     topics := ∅;
     peerById := {[ "A" := 0%nat; "B" := 1%nat ]};
     peersByRoom := ∅;
     peerByHandshake := {[ 4999 := 0%nat ]} |}.

(** ["B"] asks for a code (the first draw, 4999, is pending; the second
    gives 2499), then ["A"] asks for another one (2499 is now pending; the
    second draw gives 7499). *)
Example two_begins : list Event :=
  [ Message 1%nat 9 [dyadic 1 1; dyadic 1 2] HandshakeInitMessage;
    Message 0%nat 10 [dyadic 1 2; dyadic 3 2] HandshakeInitMessage ].

(** [two_peers] after the first of these frames. *)
Example after_first_begin : Server :=
  {| sockets := {[ 0%nat := {| peerId := "A"; rooms := []; lastPing := 1;
                               code := Some 4999 |};
                   1%nat := {| peerId := "B"; rooms := []; lastPing := 9;
                               code := Some 2499 |} ]};
     topics := ∅;
     peerById := {[ "A" := 0%nat; "B" := 1%nat ]};
     peersByRoom := ∅;
     peerByHandshake := {[ 2499 := 1%nat; 4999 := 0%nat ]} |}.

(** The pairing code space used up: every code of [0, 9999) is pending,
    owned by socket 0. *)
Example all_codes_pending : gmap Z nat :=
  gset_to_gmap 0%nat (list_to_set (seqZ 0 9999)).

Example exhausted : Server :=
  {| sockets := {[ 0%nat := {| peerId := "A"; rooms := []; lastPing := 1;
                               code := Some 0 |} ]};
     topics := ∅;
     peerById := {[ "A" := 0%nat ]};
     peersByRoom := ∅;
     peerByHandshake := all_codes_pending |}.

(** [fetch], [open] and a first [join] of [example_room] by one peer. *)
Example first_join : list Event :=
  [ Fetch None "A" 0; Open 0%nat;
    Message 0%nat 1 [] (SimplePeerJoinMessage example_room) ].

(** One peer connects, joins [example_room] and disconnects. *)
Example join_then_close : list Event :=
  [ Fetch None "A" 0; Open 0%nat;
    Message 0%nat 1 [] (SimplePeerJoinMessage example_room);
    Close 0%nat ].

(** ["A"] and ["B"] connect; ["A"] sends [handshake-begin] twice (codes 4999
    and 2499) and disconnects. *)
Example two_codes_then_close : list Event :=
  [ Fetch None "A" 0; Open 0%nat; Fetch None "B" 0; Open 1%nat;
    Message 0%nat 1 [dyadic 1 1] HandshakeInitMessage;
    Message 0%nat 2 [dyadic 1 2] HandshakeInitMessage;
    Close 0%nat ].

(** ["A"] and ["B"] connect and ["A"] asks for a pairing code: the run that
    leads to [two_peers]. *)
Example two_connect : list Event :=
  [ Fetch None "A" 1; Open 0%nat; Fetch None "B" 2; Open 1%nat;
    Message 0%nat 1 [dyadic 1 1] HandshakeInitMessage ].

(** [one_member] with a second peer ["B"] on socket 1 that is connected but
    has joined no room. *)
Example member_and_guest : Server :=
  {| sockets := {[ 0%nat := {| peerId := "A"; rooms := [example_room];
                               lastPing := 1; code := None |};
                   1%nat := {| peerId := "B"; rooms := []; lastPing := 2;
                               code := None |} ]};
     topics := {[ (0%nat, example_room) ]};
     peerById := {[ "A" := 0%nat; "B" := 1%nat ]};
     peersByRoom := {[ example_room := ["A"] ]};
     peerByHandshake := ∅ |}.

(** The run that leads to [member_and_guest]. *)
Example member_and_guest_run : list Event :=
  [ Fetch None "A" 0; Open 0%nat;
    Message 0%nat 1 [] (SimplePeerJoinMessage example_room);
    Fetch None "B" 2; Open 1%nat ].





(** * Properties *)

(** ** Basic facts *)

Lemma touch_Some ws now st p :
  sockets st !! ws = Some p →
  touch ws now st = set_socket ws (with_lastPing now p) st.
Proof. intros H. unfold touch. by rewrite H. Qed.

Lemma touch_same_but_lastPing ws now st : same_but_lastPing st (touch ws now st).
Proof.
  unfold touch. destruct (sockets st !! ws) as [p|] eqn:E; [|done].
  repeat split; simpl.
  rewrite fmap_insert. apply map_eq. intros w.
  destruct (decide (w = ws)) as [->|Hne].
  - rewrite lookup_insert_eq, lookup_fmap, E. done.
  - by rewrite lookup_insert_ne.
Qed.

Lemma Set_add_elem x y s : y ∈ Set_add x s ↔ y ∈ s ∨ y = x.
Proof.
  unfold Set_add. destruct (decide (x ∈ s)) as [Hin|Hout].
  - split; [by left|]. by intros [?| ->].
  - by rewrite elem_of_app, list_elem_of_singleton.
Qed.

Lemma Set_add_present x s : x ∈ s → Set_add x s = s.
Proof. intros H. unfold Set_add. by rewrite decide_True. Qed.

Lemma Set_add_NoDup x s : NoDup s → NoDup (Set_add x s).
Proof.
  intros Hs. unfold Set_add. destruct (decide (x ∈ s)) as [Hin|Hout]; [done|].
  apply NoDup_app. split_and!; [done| |apply NoDup_singleton].
  intros y Hy Hyx%list_elem_of_singleton. by subst y.
Qed.

Lemma Set_delete_elem x y s : y ∈ Set_delete x s ↔ y ∈ s ∧ y ≠ x.
Proof. unfold Set_delete. rewrite list_elem_of_filter. tauto. Qed.

Lemma Set_delete_NoDup x s : NoDup s → NoDup (Set_delete x s).
Proof. apply NoDup_filter. Qed.

(** What [case "join"] computes, on any state. *)
Lemma case_join_spec ws peer roomId st :
  case_join ws peer roomId st =
    Returned
      (set_topics ({[ (ws, roomId) ]} ∪ topics st)
         (set_peersByRoom
            (<[roomId := Set_add (peerId peer) (members st roomId)]> (peersByRoom st))
            (set_socket ws (with_rooms (Set_add roomId (rooms peer)) peer) st)))
      [publish roomId
         (SimplePeerJoinedMessage (Set_add (peerId peer) (members st roomId)))].
Proof.
  unfold case_join, members. simpl.
  destruct (peersByRoom st !! roomId) as [room|] eqn:E; simpl; [done|].
  by rewrite insert_insert_eq.
Qed.

(** ** Disconnect: what [close] computes *)

Lemma leave_room_keeps v ws pid st roomId :
  sockets (leave_room v ws pid st roomId) = sockets st
  ∧ peerById (leave_room v ws pid st roomId) = peerById st
  ∧ peerByHandshake (leave_room v ws pid st roomId) = peerByHandshake st.
Proof.
  unfold leave_room. destruct (peersByRoom st !! roomId); [|done].
  by destruct (deletes_empty_rooms v && _).
Qed.

Lemma foldl_leave_room_keeps v ws pid rs st :
  sockets (foldl (leave_room v ws pid) st rs) = sockets st
  ∧ peerById (foldl (leave_room v ws pid) st rs) = peerById st
  ∧ peerByHandshake (foldl (leave_room v ws pid) st rs) = peerByHandshake st.
Proof.
  revert st. induction rs as [|r rs IH]; intros st; simpl; [done|].
  destruct (IH (leave_room v ws pid st r)) as (-> & -> & ->).
  apply leave_room_keeps.
Qed.

Lemma leave_room_peersByRoom v ws pid st roomId :
  peersByRoom (leave_room v ws pid st roomId) =
    match peersByRoom st !! roomId with
    | None => peersByRoom st
    | Some room =>
        if deletes_empty_rooms v && bool_decide (Set_delete pid room = [])
        then delete roomId (peersByRoom st)
        else <[roomId := Set_delete pid room]> (peersByRoom st)
    end.
Proof.
  unfold leave_room. destruct (peersByRoom st !! roomId) as [room|]; [|done].
  destruct (deletes_empty_rooms v && _); simpl; [|done].
  apply delete_insert_eq.
Qed.

Lemma leave_room_topics v ws pid st roomId :
  topics (leave_room v ws pid st roomId) = topics st ∖ {[ (ws, roomId) ]}.
Proof.
  unfold leave_room. destruct (peersByRoom st !! roomId); [|done].
  by destruct (deletes_empty_rooms v && _).
Qed.

Lemma leave_room_other_room v ws pid st roomId r :
  r ≠ roomId →
  peersByRoom (leave_room v ws pid st roomId) !! r = peersByRoom st !! r.
Proof.
  intros Hr. rewrite leave_room_peersByRoom.
  destruct (peersByRoom st !! roomId); [|done].
  destruct (deletes_empty_rooms v && _).
  - by rewrite lookup_delete_ne.
  - by rewrite lookup_insert_ne.
Qed.

Lemma leave_room_members v ws pid st roomId r x :
  x ∈ members (leave_room v ws pid st roomId) r
  ↔ x ∈ members st r ∧ ¬ (r = roomId ∧ x = pid).
Proof.
  destruct (decide (r = roomId)) as [->|Hr].
  - unfold members. rewrite leave_room_peersByRoom.
    destruct (peersByRoom st !! roomId) as [room|] eqn:Hroom; simpl.
    + destruct (deletes_empty_rooms v && bool_decide (Set_delete pid room = []))
        eqn:Hdelete.
      * apply andb_true_iff in Hdelete as [_ Hempty%bool_decide_eq_true].
        rewrite lookup_delete_eq. simpl. split; [by intros ?%elem_of_nil|].
        intros [Hx Hne]. assert (Hin : x ∈ Set_delete pid room).
        { apply Set_delete_elem. split; [done|]. intros ->. by apply Hne. }
        by rewrite Hempty in Hin.
      * rewrite lookup_insert_eq. simpl. rewrite Set_delete_elem.
        split; [intros [? ?]; split; [done|]; by intros [_ ?]|].
        intros [? Hne]. split; [done|]. intros ->. by apply Hne.
    + rewrite Hroom. simpl. split; [by intros ?%elem_of_nil|by intros [?%elem_of_nil _]].
  - unfold members. rewrite leave_room_other_room by done.
    split; [|by intros [? _]]. intros ?. split; [done|]. by intros [? _].
Qed.

Lemma foldl_leave_room_members v ws pid rs st r x :
  x ∈ members (foldl (leave_room v ws pid) st rs) r
  ↔ x ∈ members st r ∧ ¬ (r ∈ rs ∧ x = pid).
Proof.
  revert st. induction rs as [|r' rs IH]; intros st; simpl.
  - split; [|by intros [? _]]. intros ?. split; [done|].
    by intros [?%elem_of_nil _].
  - rewrite IH, leave_room_members, elem_of_cons. tauto.
Qed.

Lemma foldl_leave_room_other_room v ws pid rs st r :
  r ∉ rs →
  peersByRoom (foldl (leave_room v ws pid) st rs) !! r = peersByRoom st !! r.
Proof.
  revert st. induction rs as [|r' rs IH]; intros st Hr; simpl; [done|].
  apply not_elem_of_cons in Hr as [Hne Hr].
  rewrite IH by done. by apply leave_room_other_room.
Qed.

Lemma foldl_leave_room_topics v ws pid rs st w r :
  (w, r) ∈ topics (foldl (leave_room v ws pid) st rs)
  ↔ (w, r) ∈ topics st ∧ ¬ (w = ws ∧ r ∈ rs).
Proof.
  revert st. induction rs as [|r' rs IH]; intros st; simpl.
  - split; [|by intros [? _]]. intros ?. split; [done|].
    by intros [_ ?%elem_of_nil].
  - rewrite IH, leave_room_topics, elem_of_difference, elem_of_singleton,
      elem_of_cons.
    split.
    + intros [[Hin Hne] Hrs]. split; [done|]. intros [-> [->|Hr]]; [by apply Hne|].
      by apply Hrs.
    + intros [Hin Hne]. split; [split; [done|]|].
      * intros [= -> ->]. apply Hne. split; [done|by left].
      * intros [-> Hr]. apply Hne. split; [done|by right].
Qed.

(** What [close] leaves behind, as a whole. *)
Lemma websocket_close_spec v st ws peer :
  sockets st !! ws = Some peer →
  ∃ st',
    websocket_close v ws st = Returned st' []
    ∧ sockets st' = sockets st
    ∧ peerById st' = delete (peerId peer) (peerById st)
    ∧ (∀ r x, x ∈ members st' r
              ↔ x ∈ members st r ∧ ¬ (r ∈ rooms peer ∧ x = peerId peer))
    ∧ (∀ r, r ∉ rooms peer → peersByRoom st' !! r = peersByRoom st !! r)
    ∧ (∀ w r, subscribed st' w r
              ↔ subscribed st w r ∧ ¬ (w = ws ∧ r ∈ rooms peer)).
Proof.
  intros Hws. unfold websocket_close. rewrite Hws.
  destruct (foldl_leave_room_keeps v ws (peerId peer) (rooms peer) st)
    as (Hsock & Hreg & _).
  pose proof (foldl_leave_room_members v ws (peerId peer) (rooms peer) st)
    as Hmem.
  pose proof (foldl_leave_room_other_room v ws (peerId peer) (rooms peer) st)
    as Hother.
  pose proof (foldl_leave_room_topics v ws (peerId peer) (rooms peer) st)
    as Htop.
  eexists. split; [reflexivity|].
  destruct (has_handshake v); [destruct (code peer)|]; simpl;
    rewrite Hreg; (split; [exact Hsock|]); (split; [reflexivity|]);
    (split; [exact Hmem|]); (split; [exact Hother|]); exact Htop.
Qed.

Lemma websocket_close_rooms v st ws peer :
  sockets st !! ws = Some peer →
  ∃ st',
    websocket_close v ws st = Returned st' []
    ∧ peersByRoom st'
      = peersByRoom (foldl (leave_room v ws (peerId peer)) st (rooms peer)).
Proof.
  intros Hws. unfold websocket_close. rewrite Hws.
  eexists. split; [reflexivity|].
  destruct (has_handshake v); [destruct (code peer)|]; done.
Qed.

Lemma Set_delete_absent x s : x ∉ s → Set_delete x s = s.
Proof.
  unfold Set_delete. induction s as [|y s IH]; [done|].
  intros [Hne Hs]%not_elem_of_cons. rewrite filter_cons_True by done.
  by rewrite IH.
Qed.

Lemma Set_delete_add x s : x ∉ s → Set_delete x (Set_add x s) = s.
Proof.
  intros Hs. unfold Set_add. rewrite decide_False by done.
  unfold Set_delete. rewrite filter_app.
  fold (Set_delete x s). rewrite Set_delete_absent by done.
  rewrite filter_cons_False by (by intros []). by rewrite app_nil_r.
Qed.


(** What [close] does to the Pairing Table. *)
Lemma websocket_close_table v st ws peer st' out :
  sockets st !! ws = Some peer →
  websocket_close v ws st = Returned st' out →
  peerByHandshake st'
  = if has_handshake v then
      match code peer with
      | Some c => delete c (peerByHandshake st)
      | None => peerByHandshake st
      end
    else peerByHandshake st.
Proof.
  intros Hws. unfold websocket_close. rewrite Hws. intros [= <- <-].
  destruct (foldl_leave_room_keeps v ws (peerId peer) (rooms peer) st)
    as (_ & _ & Htbl).
  destruct (has_handshake v); [destruct (code peer)|]; simpl; by rewrite Htbl.
Qed.

(** [close] returns only for a known socket, and then without a frame. *)
Lemma websocket_close_returned v ws st st' out :
  websocket_close v ws st = Returned st' out →
  ∃ peer,
    sockets st !! ws = Some peer ∧ out = []
    ∧ sockets st' = sockets st
    ∧ peerById st' = delete (peerId peer) (peerById st).
Proof.
  intros Hclose.
  destruct (sockets st !! ws) as [peer|] eqn:Hws;
    [|unfold websocket_close in Hclose; by rewrite Hws in Hclose].
  destruct (websocket_close_spec v st ws peer Hws) as (st1 & Hclose1 & ? & ? & _).
  rewrite Hclose in Hclose1. injection Hclose1 as <- <-. by exists peer.
Qed.

Lemma touch_lookup ws now st peer :
  sockets st !! ws = Some peer →
  sockets (touch ws now st) !! ws = Some (with_lastPing now peer).
Proof.
  intros Hws. rewrite (touch_Some _ _ _ peer) by done. apply lookup_insert_eq.
Qed.

(** A rejected [join] is the sender's disconnect, run on the state with the
    refreshed [lastPing], with the close frame as its only effect. *)
Lemma rejected_join_is_close validate v now random ws peer room st :
  sockets st !! ws = Some peer →
  validate room = false →
  ∃ st',
    websocket_close v ws (touch ws now st) = Returned st' []
    ∧ websocket_message validate v now random ws (SimplePeerJoinMessage room) st
      = Returned st' [ws_close ws "Invalid ID"].
Proof.
  intros Hws Hbad.
  destruct (websocket_close_spec v (touch ws now st) ws (with_lastPing now peer)
              (touch_lookup _ _ _ _ Hws)) as (st' & Hclose & _).
  exists st'. split; [done|].
  unfold websocket_message. rewrite Hws, Hbad.
  rewrite (touch_Some _ _ _ peer) in Hclose by done. by rewrite Hclose.
Qed.

(** The disconnect that ends a rejected [join], relative to the state the
    frame arrived in. *)
Lemma close_after_touch v ws now st peer st' :
  sockets st !! ws = Some peer →
  websocket_close v ws (touch ws now st) = Returned st' [] →
  sockets st' = <[ws := with_lastPing now peer]> (sockets st)
  ∧ peerById st' = delete (peerId peer) (peerById st)
  ∧ (∀ r x, x ∈ members st' r
            ↔ x ∈ members st r ∧ ¬ (r ∈ rooms peer ∧ x = peerId peer))
  ∧ (∀ w r, subscribed st' w r
            ↔ subscribed st w r ∧ ¬ (w = ws ∧ r ∈ rooms peer)).
Proof.
  intros Hws Hclose.
  destruct (websocket_close_spec v _ ws _ (touch_lookup ws now st peer Hws))
    as (st1 & Hclose1 & Hsock & Hreg & Hmem & _ & Htop).
  rewrite Hclose in Hclose1. injection Hclose1 as <-.
  rewrite (touch_Some _ _ _ peer) in Hsock, Hreg, Hmem, Htop by done.
  done.
Qed.

(** ** Rooms: join *)




(** C10. A second valid [join] for a room by a socket that is already a
    member (its identifier is in the room's member set and the room is in its
    room set) leaves the whole Room Index and the socket's room set as they
    were, and still publishes the full roster on the room's topic. *)
Theorem C10_join_idempotent_on_membership
    (validate : string → bool) (v : Variant) (st : Server) (ws : nat)
    (peer : ServerPeer) (now : Z) (random : list double) (room : string) :
  sockets st !! ws = Some peer →
  validate room = true →
  room ∈ rooms peer →
  peerId peer ∈ members st room →
  ∃ st',
    websocket_message validate v now random ws (SimplePeerJoinMessage room) st
      = Returned st' [publish room (SimplePeerJoinedMessage (members st room))]
    ∧ peersByRoom st' = peersByRoom st
    ∧ members st' room = members st room
    ∧ rooms <$> sockets st' !! ws = Some (rooms peer).
Proof.
  intros Hws Hok Hroom Hmem.
  unfold websocket_message. rewrite Hws, Hok, case_join_spec.
  assert (Hm : members (set_socket ws (with_lastPing now peer) st) room
               = members st room) by done.
  rewrite Hm. simpl. rewrite !Set_add_present by done.
  assert (Hkey : peersByRoom st !! room = Some (members st room)).
  { unfold members in *. destruct (peersByRoom st !! room); [done|].
    by apply elem_of_nil in Hmem. }
  eexists. split_and!; [reflexivity|..]; simpl.
  - by apply insert_id.
  - unfold members at 1. simpl. by rewrite lookup_insert_eq.
  - by rewrite lookup_insert_eq.
Qed.

Lemma C10_witness :
  ∃ st',
    websocket_message uuid_validate app_ts 7 [] 0%nat
        (SimplePeerJoinMessage example_room) one_member
      = Returned st'
          [publish example_room
             (SimplePeerJoinedMessage (members one_member example_room))]
    ∧ peersByRoom st' = peersByRoom one_member
    ∧ members st' example_room = members one_member example_room
    ∧ rooms <$> sockets st' !! 0%nat = Some [example_room].
Proof.
  apply (C10_join_idempotent_on_membership uuid_validate app_ts one_member 0%nat
           {| peerId := "A"; rooms := [example_room]; lastPing := 1; code := None |}).
  - reflexivity.
  - vm_compute. reflexivity.
  - apply list_elem_of_here.
  - apply list_elem_of_here.
Defined.

(** ** Signal relay *)

(** C4. For a [signal] frame received on socket [ws]: when [senderPeerId] is
    the identifier of [ws] and [receiverPeerId] is a key of the Registry, the
    only effect is one [send] of that very frame (same [room],
    [senderPeerId], [receiverPeerId], [data]) to the registered socket; when
    the sender does not match or the receiver is not registered, there is no
    effect at all (no frame to anyone, no close, nothing sent back).  The state
    changes in the sender's [lastPing] only. *)
Theorem C4_signal_forwarded_verbatim_or_dropped
    (validate : string → bool) (v : Variant) (st : Server) (ws : nat)
    (peer : ServerPeer) (now : Z) (random : list double)
    (room senderPeerId receiverPeerId data : string) :
  sockets st !! ws = Some peer →
  let frame := SimplePeerSignalMessage room senderPeerId receiverPeerId data in
  ∃ out,
    websocket_message validate v now random ws frame st
      = Returned (touch ws now st) out
    ∧ (∀ receiver,
         senderPeerId = peerId peer →
         peerById st !! receiverPeerId = Some receiver →
         out = [send receiver frame])
    ∧ (senderPeerId ≠ peerId peer ∨ peerById st !! receiverPeerId = None →
       out = []).
Proof.
  intros Hws frame. unfold websocket_message. rewrite Hws.
  rewrite (touch_Some _ _ _ peer) by done.
  unfold frame, case_signal. simpl.
  destruct (decide (senderPeerId ≠ peerId peer)) as [Hne|Heq].
  - eexists. split_and!; [reflexivity| |done].
    intros receiver Hs _. done.
  - apply dec_stable in Heq.
    destruct (peerById st !! receiverPeerId) as [receiver|] eqn:E.
    + eexists. split_and!; [reflexivity| |].
      * by intros ? _ [= <-].
      * intros [Hne|[=]]. done.
    + eexists. split_and!; [reflexivity| |done]. by intros ? _ [=].
Qed.

Lemma C4_witness :
  let frame := SimplePeerSignalMessage example_room "A" "B" "offer" in
  ∃ out,
    websocket_message uuid_validate part_000 9 [] 0%nat frame two_peers
      = Returned (touch 0%nat 9 two_peers) out
    ∧ (∀ receiver,
         "A" = "A" →
         peerById two_peers !! "B" = Some receiver →
         out = [send receiver frame])
    ∧ ("A" ≠ "A" ∨ peerById two_peers !! "B" = None → out = []).
Proof.
  apply (C4_signal_forwarded_verbatim_or_dropped uuid_validate part_000
           two_peers 0%nat
           {| peerId := "A"; rooms := []; lastPing := 1; code := Some 4999 |}
           9 [] example_room "A" "B" "offer").
  reflexivity.
Defined.

(** ** Pairing: handshake-join *)

(** What [case "handshake-join"] does when the code is pending. *)
Lemma handshake_join_pending validate v st ws me peer owner now random c :
  has_handshake v = true →
  sockets st !! ws = Some me →
  peerByHandshake st !! c = Some peer →
  sockets st !! peer = Some owner →
  websocket_message validate v now random ws (HandshakeJoinMessage c) st
    = Returned
        (set_peerByHandshake (delete c (peerByHandshake st)) (touch ws now st))
        [ send ws (HandshakeCompleteMessage (peerId me) (peerId owner));
          send peer (HandshakeCompleteMessage (peerId owner) (peerId me)) ].
Proof.
  intros Hv Hws Hc Hpeer. unfold websocket_message, case_handshake_join.
  rewrite Hws, Hv, (touch_Some _ _ _ me) by done. simpl. rewrite Hc.
  destruct (decide (peer = ws)) as [->|Hne].
  - rewrite lookup_insert_eq. by simplify_eq.
  - rewrite lookup_insert_ne, Hpeer by done. done.
Qed.

(** What [case "handshake-join"] does when the code is absent. *)
Lemma handshake_join_absent validate v st ws now random c :
  is_Some (sockets st !! ws) →
  peerByHandshake st !! c = None →
  websocket_message validate v now random ws (HandshakeJoinMessage c) st
    = Returned (touch ws now st) [].
Proof.
  intros [me Hws] Hc. unfold websocket_message, case_handshake_join.
  rewrite Hws, (touch_Some _ _ _ me) by done. simpl. rewrite Hc.
  by destruct (has_handshake v).
Qed.

(** C9. A socket that sends [handshake-join] with a code that the Pairing
    Table maps to that same socket receives two [handshake-complete] frames,
    both with [yourId] and [otherId] equal to its own identifier, and the code
    is deleted from the Pairing Table. *)
Theorem C9_self_pairing_completes_with_itself
    (validate : string → bool) (v : Variant) (st : Server) (ws : nat)
    (peer : ServerPeer) (now : Z) (random : list double) (c : Z) :
  has_handshake v = true →
  sockets st !! ws = Some peer →
  peerByHandshake st !! c = Some ws →
  ∃ st',
    websocket_message validate v now random ws (HandshakeJoinMessage c) st
      = Returned st'
          [ send ws (HandshakeCompleteMessage (peerId peer) (peerId peer));
            send ws (HandshakeCompleteMessage (peerId peer) (peerId peer)) ]
    ∧ peerByHandshake st' = delete c (peerByHandshake st)
    ∧ peerByHandshake st' !! c = None.
Proof.
  intros Hv Hws Hc. eexists. split_and!.
  - by apply handshake_join_pending.
  - done.
  - simpl. apply lookup_delete_eq.
Qed.

Lemma C9_witness :
  ∃ st',
    websocket_message uuid_validate part_000 9 [] 0%nat
        (HandshakeJoinMessage 4999) two_peers
      = Returned st'
          [ send 0%nat (HandshakeCompleteMessage "A" "A");
            send 0%nat (HandshakeCompleteMessage "A" "A") ]
    ∧ peerByHandshake st' = delete 4999 (peerByHandshake two_peers)
    ∧ peerByHandshake st' !! 4999 = None.
Proof.
  apply (C9_self_pairing_completes_with_itself uuid_validate part_000
           two_peers 0%nat
           {| peerId := "A"; rooms := []; lastPing := 1; code := Some 4999 |}).
  - reflexivity.
  - reflexivity.
  - reflexivity.
Defined.

(** ** Pairing: the code generator *)

(** Rounding moves a number of at most 67 bits up by at most [2^13] and
    never below zero. *)
Lemma round_to_53_bits_bounds P :
  (0 ≤ P < 2 ^ 67)%Z → (0 ≤ round_to_53_bits P ≤ P + 2 ^ 13)%Z.
Proof.
  intros [Hlo Hhi]. unfold round_to_53_bits.
  destruct (Z.leb_spec (Z.log2 P + 1) 53) as [Hsmall|Hbig]; [lia|].
  assert (Hpos : (0 < P)%Z).
  { destruct (Z.le_gt_cases P 0) as [Hle|Hgt]; [|lia].
    rewrite (Z.log2_nonpos P Hle) in Hbig. lia. }
  assert (Hlog : (Z.log2 P < 67)%Z).
  { by apply (proj1 (Z.log2_lt_pow2 P 67 Hpos)). }
  set (s := (Z.log2 P + 1 - 53)%Z) in *.
  assert (Hs : (1 ≤ s ≤ 14)%Z) by lia.
  assert (Hpow : (2 ^ s = 2 * 2 ^ (s - 1))%Z).
  { rewrite <- Z.pow_succ_r by lia. f_equal. lia. }
  assert (Hhalf : (0 < 2 ^ (s - 1) ≤ 2 ^ 13)%Z).
  { split; [apply Z.pow_pos_nonneg; lia|apply Z.pow_le_mono_r; lia]. }
  pose proof (Z.div_mod P (2 ^ s)%Z ltac:(lia)) as Hdiv.
  pose proof (Z.mod_pos_bound P (2 ^ s)%Z ltac:(lia)) as Hrest.
  assert (Hq : (0 ≤ P / 2 ^ s)%Z) by (apply Z.div_pos; lia).
  set (q := (P / 2 ^ s)%Z) in *. set (rest := (P mod 2 ^ s)%Z) in *.
  set (half := (2 ^ (s - 1))%Z) in *.
  rewrite Hpow in *.
  destruct ((half <? rest)%Z || ((rest =? half)%Z && Z.odd q)) eqn:Hup.
  - assert ((half ≤ rest)%Z).
    { apply orb_true_iff in Hup as [?%Z.ltb_lt|[?%Z.eqb_eq _]%andb_true_iff]; lia. }
    nia.
  - nia.
Qed.

(** [Math.floor(Math.random() * 9999)] is one of 0, ..., 9998. *)
Lemma random_code_range r : unit_interval r → 0 ≤ random_code r < 9999.
Proof.
  intros [[Hm0 Hm1] [He0 He1]]. unfold random_code.
  pose proof (round_to_53_bits_bounds (mantissa r * 9999) ltac:(lia)) as [Hr0 Hr1].
  assert (Hpow : (2 ^ 53 ≤ 2 ^ exponent r)%Z) by (apply Z.pow_le_mono_r; lia).
  split.
  - apply Z.div_pos; lia.
  - apply Z.div_lt_upper_bound; lia.
Qed.

(** The product is rounded before it is floored: for this draw the exact
    product lies below 8345 and the binary64 product is 8345. *)
Lemma random_code_rounds :
  random_code {| mantissa := 7517259504031761; exponent := 53 |} = 8345
  ∧ 7517259504031761 * 9999 / (2 ^ 53)%Z = 8344.
Proof. split; vm_compute; reflexivity. Qed.

(** The loop returns a draw that is not pending, after draws that all were. *)
Lemma generate_code_Some tbl random c :
  generate_code tbl random = Some c →
  ∃ pre r post,
    random = (pre ++ r :: post)%list ∧ c = random_code r ∧ tbl !! c = None
    ∧ Forall (λ r', is_Some (tbl !! random_code r')) pre.
Proof.
  induction random as [|r random IH]; simpl; [done|].
  case_decide as Hr.
  - intros (pre & r' & post & -> & -> & Hfree & Hpre)%IH.
    exists (r :: pre), r', post. split_and!; try done. by constructor.
  - intros [= <-]. exists [], r, random. split_and!; try done.
    by apply eq_None_not_Some.
Qed.

(** The loop leaves as soon as a draw is not pending. *)
Lemma generate_code_first_free tbl pre r post :
  Forall (λ r', is_Some (tbl !! random_code r')) pre →
  tbl !! random_code r = None →
  generate_code tbl (pre ++ r :: post)%list = Some (random_code r).
Proof.
  intros Hpre Hfree. induction Hpre as [|r' pre Hr' _ IH]; simpl.
  - rewrite decide_False; [done|]. rewrite Hfree. by intros [? [=]].
  - by rewrite decide_True.
Qed.

(** With every code of the code space pending, the loop never leaves. *)
Lemma generate_code_exhausted tbl random :
  (∀ c, 0 ≤ c < 9999 → is_Some (tbl !! c)) →
  Forall unit_interval random →
  generate_code tbl random = None.
Proof.
  intros Hfull Hrandom. induction Hrandom as [|r random Hr _ IH]; simpl; [done|].
  rewrite decide_True; [done|]. by apply Hfull, random_code_range.
Qed.

(** What [case "handshake-begin"] does once the loop has left with [c]. *)
Lemma handshake_begin_issues validate v st ws peer now random c :
  has_handshake v = true →
  sockets st !! ws = Some peer →
  generate_code (peerByHandshake st) random = Some c →
  websocket_message validate v now random ws HandshakeInitMessage st
    = Returned
        (set_peerByHandshake (<[c := ws]> (peerByHandshake st))
           (set_socket ws (with_code c (with_lastPing now peer)) st))
        [send ws (HandshakeResponseMessage (peerId peer) c)].
Proof.
  intros Hv Hws Hc. unfold websocket_message, case_handshake_begin.
  rewrite Hws, Hv. simpl. rewrite Hc.
  unfold set_peerByHandshake, set_socket. simpl. by rewrite insert_insert_eq.
Qed.

Lemma handshake_begin_loops validate v st ws now random :
  has_handshake v = true →
  is_Some (sockets st !! ws) →
  generate_code (peerByHandshake st) random = None →
  websocket_message validate v now random ws HandshakeInitMessage st = Looping.
Proof.
  intros Hv [peer Hws] Hc. unfold websocket_message, case_handshake_begin.
  rewrite Hws, Hv. simpl. by rewrite Hc.
Qed.

(** ** How one callback changes the Pairing Table *)

(** A callback leaves the Pairing Table alone, or issues one code that was
    not pending, or deletes one key. *)
Lemma handle_table validate v ev st st' out :
  handle validate v ev st = Returned st' out →
  (peerByHandshake st' = peerByHandshake st ∧ issued_codes out = [])
  ∨ (∃ ws now random c,
       ev = Message ws now random HandshakeInitMessage
       ∧ is_Some (sockets st !! ws)
       ∧ generate_code (peerByHandshake st) random = Some c
       ∧ peerByHandshake st' = <[c := ws]> (peerByHandshake st)
       ∧ issued_codes out = [c])
  ∨ (∃ c, removes_code validate ev
       ∧ peerByHandshake st' = delete c (peerByHandshake st)
       ∧ issued_codes out = []).
Proof.
  destruct ev as [cookie uuid4 now|ws|ws now random msg|ws]; simpl.
  - intros [= <- <-]. by left.
  - unfold websocket_open. destruct (sockets st !! ws); [|done].
    intros [= <- <-]. by left.
  - unfold websocket_message. destruct (sockets st !! ws) as [peer|] eqn:Hws; [|done].
    destruct msg; try (intros [= <- <-]; by left).
    + destruct (validate room) eqn:Hok.
      * rewrite case_join_spec. intros [= <- <-]. by left.
      * destruct (websocket_close v ws _) as [st1 out1| |] eqn:Hclose; [|done..].
        intros [= <- <-].
        destruct (websocket_close_returned _ _ _ _ _ Hclose)
          as (peer1 & Hws1 & -> & _).
        rewrite (websocket_close_table _ _ _ _ _ _ Hws1 Hclose). simpl.
        destruct (has_handshake v); [|by left].
        destruct (code peer1) as [c|]; [|by left].
        right. right. by exists c.
    + unfold case_signal. case_decide; [intros [= <- <-]; by left|].
      simpl. destruct (peerById st !! receiverPeerId);
        intros [= <- <-]; by left.
    + destruct (has_handshake v); [|intros [= <- <-]; by left].
      unfold case_handshake_begin. simpl.
      destruct (generate_code (peerByHandshake st) random) as [c|] eqn:Hc; [|done].
      intros [= <- <-]. right. left. exists ws, now, random, c.
      split_and!; [done|by eexists|done..].
    + destruct (has_handshake v); [|intros [= <- <-]; by left].
      unfold case_handshake_join. simpl.
      destruct (peerByHandshake st !! code0) eqn:Hc; [|intros [= <- <-]; by left].
      destruct (_ !! n); [|done]. intros [= <- <-]. right. right. by exists code0.
  - unfold websocket_close. destruct (sockets st !! ws) as [peer|]; [|done].
    intros [= <- <-].
    destruct (foldl_leave_room_keeps v ws (peerId peer) (rooms peer) st)
      as (_ & _ & Htbl).
    destruct (has_handshake v); [|left; by rewrite <- Htbl].
    destruct (code peer) as [c|]; [|left; by rewrite <- Htbl].
    right. right. exists c. simpl. by rewrite Htbl.
Qed.

Lemma run_cons validate v ev evs st st'' out'' :
  run validate v (ev :: evs) st = Returned st'' out'' →
  ∃ st' out out',
    handle validate v ev st = Returned st' out
    ∧ run validate v evs st' = Returned st'' out'
    ∧ out'' = (out ++ out')%list.
Proof.
  simpl. destruct (handle validate v ev st) as [st' out| |] eqn:Hstep; [|done..].
  destruct (run validate v evs st') as [st2 out'| |] eqn:Hrun; [|done..].
  intros [= <- <-]. by exists st', out, out'.
Qed.

Lemma issued_codes_app out out' :
  issued_codes (out ++ out')%list = (issued_codes out ++ issued_codes out')%list.
Proof. apply omap_app. Qed.

(** A code that is absent stays absent along a run that does not issue
    it. *)
Lemma run_keeps_absent validate v evs st st' out c :
  run validate v evs st = Returned st' out →
  c ∉ issued_codes out →
  peerByHandshake st !! c = None →
  peerByHandshake st' !! c = None.
Proof.
  revert st out. induction evs as [|ev evs IH]; intros st out.
  - by intros [= <- <-].
  - intros (st1 & out1 & out2 & Hstep & Hrun & ->)%run_cons.
    rewrite issued_codes_app, not_elem_of_app. intros [Hout1 Hout2] Hc.
    eapply IH; [done..|].
    destruct (handle_table _ _ _ _ _ _ Hstep)
      as [[-> _]|[(ws & now & random & c' & _ & _ & _ & -> & Hissued)
                 |(c' & _ & -> & _)]].
    + done.
    + rewrite Hissued in Hout1. rewrite lookup_insert_ne; [done|].
      intros ->. apply Hout1, list_elem_of_here.
    + rewrite lookup_delete. by case_decide.
Qed.

(** No callback removes a socket's [data] object. *)
Lemma handle_keeps_sockets validate v ev st st' out ws :
  handle validate v ev st = Returned st' out →
  is_Some (sockets st !! ws) → is_Some (sockets st' !! ws).
Proof.
  assert (Hins : ∀ (m : gmap nat ServerPeer) w p,
             is_Some (m !! ws) → is_Some (<[w := p]> m !! ws)).
  { intros m w p Hm. rewrite lookup_insert. by case_decide. }
  destruct ev as [cookie uuid4 now|w|w now random msg|w]; simpl.
  - intros [= <- <-]. apply Hins.
  - unfold websocket_open. destruct (sockets st !! w); [|done]. by intros [= <- <-].
  - unfold websocket_message. destruct (sockets st !! w) as [peer|]; [|done].
    destruct msg; try (intros [= <- <-]; by apply Hins).
    + destruct (validate room).
      * rewrite case_join_spec. intros [= <- <-] Hws. simpl. by do 2 apply Hins.
      * destruct (websocket_close v w _) as [st1 out1| |] eqn:Hclose; [|done..].
        intros [= <- <-] Hws.
        destruct (websocket_close_returned _ _ _ _ _ Hclose)
          as (_ & _ & _ & -> & _).
        by apply Hins.
    + unfold case_signal. case_decide; [intros [= <- <-]; by apply Hins|].
      simpl. destruct (peerById st !! receiverPeerId);
        intros [= <- <-]; by apply Hins.
    + destruct (has_handshake v); [|intros [= <- <-]; by apply Hins].
      unfold case_handshake_begin. simpl.
      destruct (generate_code _ _); [|done].
      intros [= <- <-] Hws. simpl. by do 2 apply Hins.
    + destruct (has_handshake v); [|intros [= <- <-]; by apply Hins].
      unfold case_handshake_join. simpl.
      destruct (peerByHandshake st !! code0); [|intros [= <- <-]; by apply Hins].
      destruct (_ !! n); [|done]. intros [= <- <-]. simpl. by apply Hins.
  - unfold websocket_close. destruct (sockets st !! w) as [peer|]; [|done].
    intros [= <- <-] Hws.
    destruct (foldl_leave_room_keeps v w (peerId peer) (rooms peer) st)
      as (Hs & _ & _).
    destruct (has_handshake v); [|simpl; by rewrite Hs].
    destruct (code peer); simpl; by rewrite Hs.
Qed.

(** A callback leaves the Registry alone, or registers a socket, or deletes
    one key. *)
Lemma handle_peerById validate v ev st st' out :
  handle validate v ev st = Returned st' out →
  peerById st' = peerById st
  ∨ (∃ ws peer, sockets st !! ws = Some peer
       ∧ peerById st' = <[peerId peer := ws]> (peerById st))
  ∨ (∃ pid, peerById st' = delete pid (peerById st)).
Proof.
  destruct ev as [cookie uuid4 now|ws|ws now random msg|ws]; simpl.
  - intros [= <- <-]. by left.
  - unfold websocket_open. destruct (sockets st !! ws) as [peer|] eqn:Hws; [|done].
    intros [= <- <-]. right. left. by exists ws, peer.
  - unfold websocket_message. destruct (sockets st !! ws) as [peer|]; [|done].
    destruct msg; try (intros [= <- <-]; by left).
    + destruct (validate room).
      * rewrite case_join_spec. intros [= <- <-]. by left.
      * destruct (websocket_close v ws _) as [st1 out1| |] eqn:Hclose; [|done..].
        intros [= <- <-].
        destruct (websocket_close_returned _ _ _ _ _ Hclose)
          as (peer1 & _ & _ & _ & ->).
        right. right. by exists (peerId peer1).
    + unfold case_signal. case_decide; [intros [= <- <-]; by left|].
      simpl. destruct (peerById st !! receiverPeerId);
        intros [= <- <-]; by left.
    + destruct (has_handshake v); [|intros [= <- <-]; by left].
      unfold case_handshake_begin. simpl.
      destruct (generate_code _ _); [|done]. intros [= <- <-]. by left.
    + destruct (has_handshake v); [|intros [= <- <-]; by left].
      unfold case_handshake_join. simpl.
      destruct (peerByHandshake st !! code0); [|intros [= <- <-]; by left].
      destruct (_ !! n); [|done]. intros [= <- <-]. by left.
  - unfold websocket_close. destruct (sockets st !! ws) as [peer|]; [|done].
    intros [= <- <-].
    destruct (foldl_leave_room_keeps v ws (peerId peer) (rooms peer) st)
      as (_ & Hreg & _).
    right. right. exists (peerId peer).
    destruct (has_handshake v); [|simpl; by rewrite Hreg].
    destruct (code peer); simpl; by rewrite Hreg.
Qed.

Lemma handle_handles_valid validate v ev st st' out :
  handle validate v ev st = Returned st' out →
  handles_valid st → handles_valid st'.
Proof.
  intros Hstep [Hreg Htbl].
  pose proof (λ w, handle_keeps_sockets _ _ _ _ _ _ w Hstep) as Hkeep.
  split.
  - intros pid w.
    destruct (handle_peerById _ _ _ _ _ _ Hstep)
      as [->|[(ws & peer & Hws & ->)|(pid' & ->)]].
    + intros Hw. eapply Hkeep, Hreg, Hw.
    + rewrite lookup_insert. case_decide.
      * intros [= <-]. apply Hkeep. by eexists.
      * intros Hw. eapply Hkeep, Hreg, Hw.
    + rewrite lookup_delete. case_decide; [done|].
      intros Hw. eapply Hkeep, Hreg, Hw.
  - intros c w.
    destruct (handle_table _ _ _ _ _ _ Hstep)
      as [[-> _]|[(ws & now & random & c' & _ & Hws & _ & -> & _)
                 |(c' & _ & -> & _)]].
    + intros Hw. eapply Hkeep, Htbl, Hw.
    + rewrite lookup_insert. case_decide.
      * intros [= <-]. by apply Hkeep.
      * intros Hw. eapply Hkeep, Htbl, Hw.
    + rewrite lookup_delete. case_decide; [done|].
      intros Hw. eapply Hkeep, Htbl, Hw.
Qed.

Lemma reachable_handles_valid validate v st :
  reachable validate v st → handles_valid st.
Proof.
  induction 1 as [|st ev st' out _ IH Hstep]; [by split|].
  by eapply handle_handles_valid.
Qed.

(** In a reachable state the [message] handler returns on every frame of a
    known socket, [handshake-begin] apart (whose loop is treated with the
    code generator). *)
Lemma reachable_message_returns validate v st ws now random msg :
  reachable validate v st →
  is_Some (sockets st !! ws) →
  msg ≠ HandshakeInitMessage →
  ∃ st' out, websocket_message validate v now random ws msg st = Returned st' out.
Proof.
  intros [_ Htbl]%reachable_handles_valid [peer Hws] Hmsg.
  unfold websocket_message. rewrite Hws.
  destruct msg; try (eexists _, _; reflexivity); try done.
  - destruct (validate room) eqn:Hok; [rewrite case_join_spec; by eexists _, _|].
    destruct (rejected_join_is_close validate v now random ws peer room st Hws Hok)
      as (st' & _ & Hrej).
    unfold websocket_message in Hrej. rewrite Hws, Hok in Hrej.
    by eexists _, _.
  - unfold case_signal. case_decide; [by eexists _, _|].
    simpl. destruct (peerById st !! receiverPeerId); by eexists _, _.
  - destruct (has_handshake v); [|by eexists _, _].
    unfold case_handshake_join. simpl.
    destruct (peerByHandshake st !! code0) as [w|] eqn:Hc; [|by eexists _, _].
    destruct (Htbl _ _ Hc) as [owner Howner].
    destruct (decide (w = ws)) as [->|Hne].
    + rewrite lookup_insert_eq. by eexists _, _.
    + rewrite lookup_insert_ne, Howner by done. by eexists _, _.
Qed.

(** C6. A [handshake-join] carrying a pending code sends one
    [handshake-complete] frame to the joiner and one to the owner, each with
    its own identifier as [yourId] and the other's as [otherId], and deletes
    the code from the Pairing Table.  From then on, after any events that
    do not issue the same number anew, a [handshake-join] with that code from
    any socket sends no frame and leaves the state as it is ([lastPing] of
    the sender apart). *)
Theorem C6_pairing_code_is_one_shot
    (validate : string → bool) (v : Variant) (st : Server) (ws peer : nat)
    (me owner : ServerPeer) (now : Z) (random : list double) (c : Z) :
  has_handshake v = true →
  sockets st !! ws = Some me →
  peerByHandshake st !! c = Some peer →
  sockets st !! peer = Some owner →
  ∃ st1,
    websocket_message validate v now random ws (HandshakeJoinMessage c) st
      = Returned st1
          [ send ws (HandshakeCompleteMessage (peerId me) (peerId owner));
            send peer (HandshakeCompleteMessage (peerId owner) (peerId me)) ]
    ∧ peerByHandshake st1 = delete c (peerByHandshake st)
    ∧ ∀ evs st2 out2 ws2 now2 random2,
        run validate v evs st1 = Returned st2 out2 →
        c ∉ issued_codes out2 →
        is_Some (sockets st2 !! ws2) →
        websocket_message validate v now2 random2 ws2 (HandshakeJoinMessage c) st2
          = Returned (touch ws2 now2 st2) []
        ∧ same_but_lastPing st2 (touch ws2 now2 st2).
Proof.
  intros Hv Hws Hc Hpeer. eexists. split_and!.
  - by apply handshake_join_pending.
  - done.
  - intros evs st2 out2 ws2 now2 random2 Hrun Hfresh Hws2. split.
    + apply handshake_join_absent; [done|].
      eapply run_keeps_absent; [done..|]. simpl. apply lookup_delete_eq.
    + apply touch_same_but_lastPing.
Qed.

Lemma C6_witness :
  ∃ st1,
    websocket_message uuid_validate part_000 9 [] 1%nat
        (HandshakeJoinMessage 4999) two_peers
      = Returned st1
          [ send 1%nat (HandshakeCompleteMessage "B" "A");
            send 0%nat (HandshakeCompleteMessage "A" "B") ]
    ∧ peerByHandshake st1 = delete 4999 (peerByHandshake two_peers)
    ∧ ∀ evs st2 out2 ws2 now2 random2,
        run uuid_validate part_000 evs st1 = Returned st2 out2 →
        4999 ∉ issued_codes out2 →
        is_Some (sockets st2 !! ws2) →
        websocket_message uuid_validate part_000 now2 random2 ws2
            (HandshakeJoinMessage 4999) st2
          = Returned (touch ws2 now2 st2) []
        ∧ same_but_lastPing st2 (touch ws2 now2 st2).
Proof.
  apply (C6_pairing_code_is_one_shot uuid_validate part_000 two_peers
           1%nat 0%nat
           {| peerId := "B"; rooms := []; lastPing := 2; code := None |}
           {| peerId := "A"; rooms := []; lastPing := 1; code := Some 4999 |}).
  - reflexivity.
  - reflexivity.
  - reflexivity.
  - reflexivity.
Defined.

(** ** Pairing: handshake-begin *)

(** Codes issued along a run without removals: none was pending at the
    start, all are pending at the end, no two are equal, and the table has
    grown by exactly one entry per code. *)
Lemma run_issued validate v evs st st' out :
  Forall (keeps_pending validate) evs →
  run validate v evs st = Returned st' out →
  NoDup (issued_codes out)
  ∧ (∀ c, c ∈ issued_codes out →
       0 ≤ c < 9999 ∧ peerByHandshake st !! c = None
       ∧ is_Some (peerByHandshake st' !! c))
  ∧ (∀ c, is_Some (peerByHandshake st !! c) → is_Some (peerByHandshake st' !! c))
  ∧ size (peerByHandshake st')
    = (size (peerByHandshake st) + length (issued_codes out))%nat.
Proof.
  intros Hevs. revert st out.
  induction Hevs as [|ev evs Hev _ IH]; intros st out.
  - intros [= <- <-]. simpl. split_and!; [constructor| |done|lia].
    by intros c ?%elem_of_nil.
  - intros (st1 & out1 & out2 & Hstep & Hrun & ->)%run_cons.
    destruct (IH _ _ Hrun) as (Hnd & Hcodes & Hmono & Hsize).
    rewrite issued_codes_app.
    destruct (handle_table _ _ _ _ _ _ Hstep)
      as [[Htbl Hout]|[(ws & now & random & c & -> & _ & Hgen & Htbl & Hout)
                      |(c & Hrem & _)]].
    + rewrite Hout. simpl. rewrite Htbl in Hcodes, Hmono, Hsize.
      done.
    + destruct (generate_code_Some _ _ _ Hgen)
        as (pre & r & post & -> & -> & Hfree & _).
      set (c := random_code r) in *.
      assert (Hin1 : is_Some (peerByHandshake st1 !! c)).
      { rewrite Htbl, lookup_insert_eq. eauto. }
      rewrite Hout. simpl. split_and!.
      * constructor; [|done]. intros (_ & Habs & _)%Hcodes.
        rewrite Habs in Hin1. by destruct Hin1.
      * intros c' [->|Hc']%elem_of_cons.
        -- split; [|split; [done|by apply Hmono]].
           apply random_code_range. simpl in Hev.
           rewrite Forall_app, Forall_cons in Hev. tauto.
        -- destruct (Hcodes c' Hc') as (Hr & Habs & Hpend).
           split; [done|split; [|done]].
           rewrite Htbl, lookup_insert in Habs. by case_decide.
      * intros c' Hc'. apply Hmono. rewrite Htbl, lookup_insert.
        by case_decide.
      * rewrite Hsize, Htbl, map_size_insert_None by done. lia.
    + destruct ev as [| |? ? ? []|]; simpl in Hev, Hrem; done || congruence.
Qed.

(** C7. A [handshake-begin] that returns has issued exactly one code, which
    lies in [0, 9999), was not a key of the Pairing Table when it was
    issued, and is now mapped to the issuing socket and recorded in its
    [code] field.  Hence the codes issued along any run that removes no
    entry (all of them still pending) are pairwise distinct, each is pending
    at the end of the run, and the table has grown by one entry per code. *)
Theorem C7_issued_codes_in_range_and_pairwise_distinct
    (validate : string → bool) (v : Variant) :
  (∀ st ws now random st' out,
     has_handshake v = true →
     Forall unit_interval random →
     websocket_message validate v now random ws HandshakeInitMessage st
       = Returned st' out →
     ∃ c peer,
       sockets st !! ws = Some peer
       ∧ out = [send ws (HandshakeResponseMessage (peerId peer) c)]
       ∧ 0 ≤ c < 9999
       ∧ peerByHandshake st !! c = None
       ∧ peerByHandshake st' = <[c := ws]> (peerByHandshake st)
       ∧ code <$> sockets st' !! ws = Some (Some c))
  ∧ (∀ evs st st' out,
       Forall (keeps_pending validate) evs →
       run validate v evs st = Returned st' out →
       NoDup (issued_codes out)
       ∧ (∀ c, c ∈ issued_codes out →
            0 ≤ c < 9999 ∧ peerByHandshake st !! c = None
            ∧ is_Some (peerByHandshake st' !! c))
       ∧ size (peerByHandshake st')
         = (size (peerByHandshake st) + length (issued_codes out))%nat).
Proof.
  split.
  - intros st ws now random st' out Hv Hrandom.
    unfold websocket_message.
    destruct (sockets st !! ws) as [peer|] eqn:Hws; [|done].
    rewrite Hv. unfold case_handshake_begin. simpl.
    destruct (generate_code (peerByHandshake st) random) as [c|] eqn:Hgen; [|done].
    intros [= <- <-]. exists c, peer.
    destruct (generate_code_Some _ _ _ Hgen)
      as (pre & r & post & -> & -> & Hfree & _).
    split; [done|]. split; [done|]. split; [|split; [done|split; [done|]]].
    + apply random_code_range.
      rewrite Forall_app, Forall_cons in Hrandom. tauto.
    + simpl. by rewrite lookup_insert_eq.
  - intros evs st st' out Hevs Hrun.
    destruct (run_issued _ _ _ _ _ _ Hevs Hrun) as (? & ? & _ & ?). done.
Qed.

Lemma two_begins_keep_pending : Forall (keeps_pending uuid_validate) two_begins.
Proof. repeat constructor; vm_compute; congruence. Qed.

Lemma C7_witness :
  (∃ c peer,
     sockets two_peers !! 1%nat = Some peer
     ∧ [send 1%nat (HandshakeResponseMessage "B" 2499)]
       = [send 1%nat (HandshakeResponseMessage (peerId peer) c)]
     ∧ 0 ≤ c < 9999
     ∧ peerByHandshake two_peers !! c = None
     ∧ peerByHandshake after_first_begin
       = <[c := 1%nat]> (peerByHandshake two_peers)
     ∧ code <$> sockets after_first_begin !! 1%nat = Some (Some c))
  ∧ ∃ st' out,
      run uuid_validate part_000 two_begins two_peers = Returned st' out
      ∧ issued_codes out = [2499; 7499]
      ∧ NoDup (issued_codes out)
      ∧ (∀ c, c ∈ issued_codes out →
           0 ≤ c < 9999 ∧ peerByHandshake two_peers !! c = None
           ∧ is_Some (peerByHandshake st' !! c))
      ∧ size (peerByHandshake st')
        = (size (peerByHandshake two_peers) + length (issued_codes out))%nat.
Proof.
  split.
  - apply (proj1 (C7_issued_codes_in_range_and_pairwise_distinct
                    uuid_validate part_000)
             two_peers 1%nat 9 [dyadic 1 1; dyadic 1 2] after_first_begin
             [send 1%nat (HandshakeResponseMessage "B" 2499)]).
    + reflexivity.
    + repeat constructor; by vm_compute.
    + vm_compute. reflexivity.
  - eexists _, _. split; [vm_compute; reflexivity|].
    split; [vm_compute; reflexivity|].
    apply (proj2 (C7_issued_codes_in_range_and_pairwise_distinct
                    uuid_validate part_000) two_begins two_peers).
    + apply two_begins_keep_pending.
    + vm_compute. reflexivity.
Defined.

Lemma exhausted_full c :
  0 ≤ c < 9999 → is_Some (peerByHandshake exhausted !! c).
Proof.
  intros Hc. exists 0%nat. change (peerByHandshake exhausted) with all_codes_pending.
  unfold all_codes_pending. apply lookup_gset_to_gmap_Some.
  split; [|reflexivity]. apply elem_of_list_to_set, elem_of_seqZ. lia.
Qed.

(** C8, as stated, fails: with the code space used up, [handshake-begin] is
    still in its loop after any number of draws; the handler has no other
    way out of the loop and no failure outcome. *)
Lemma C8_counterexample : ¬ retries_capped uuid_validate part_000.
Proof.
  intros [cap Hcap].
  assert (Hdraws : Forall unit_interval (replicate cap (dyadic 1 1))).
  { apply Forall_replicate. vm_compute. repeat split; congruence. }
  assert (Hws : is_Some (sockets exhausted !! 0%nat)).
  { eexists. reflexivity. }
  apply (Hcap exhausted 0%nat 2 (replicate cap (dyadic 1 1)) Hws Hdraws).
  - rewrite length_replicate. reflexivity.
  - apply handshake_begin_loops; [reflexivity|exact Hws|].
    apply generate_code_exhausted; [apply exhausted_full|exact Hdraws].
Qed.

(** C8, amended.  The generator of [handshake-begin] has no cap on its
    retries and no failure outcome: it returns the first draw that is not
    pending, however many pending draws come before it, and issues that code;
    while every draw is pending it stays in its loop, and so it does for any
    number of draws once every code of [0, 9999) is pending. *)
Theorem C8_generator_loops_until_a_free_draw
    (validate : string → bool) (v : Variant) (st : Server) (ws : nat)
    (peer : ServerPeer) (now : Z) (random : list double) :
  has_handshake v = true →
  sockets st !! ws = Some peer →
  (∀ pre r post,
     random = (pre ++ r :: post)%list →
     Forall (λ r', is_Some (peerByHandshake st !! random_code r')) pre →
     peerByHandshake st !! random_code r = None →
     ∃ st',
       websocket_message validate v now random ws HandshakeInitMessage st
         = Returned st'
             [send ws (HandshakeResponseMessage (peerId peer) (random_code r))]
       ∧ peerByHandshake st' = <[random_code r := ws]> (peerByHandshake st))
  ∧ (Forall (λ r', is_Some (peerByHandshake st !! random_code r')) random →
     websocket_message validate v now random ws HandshakeInitMessage st
       = Looping)
  ∧ ((∀ c, 0 ≤ c < 9999 → is_Some (peerByHandshake st !! c)) →
     Forall unit_interval random →
     websocket_message validate v now random ws HandshakeInitMessage st
       = Looping).
Proof.
  intros Hv Hws. split; [|split].
  - intros pre r post -> Hpre Hfree. eexists. split.
    + apply handshake_begin_issues; [done..|].
      by apply generate_code_first_free.
    + done.
  - intros Hall. apply handshake_begin_loops; [done|by eexists|].
    induction Hall as [|r random Hr _ IH]; simpl; [done|].
    by rewrite decide_True.
  - intros Hfull Hrandom. apply handshake_begin_loops; [done|by eexists|].
    by apply generate_code_exhausted.
Qed.

Lemma C8_witness :
  (∀ pre r post,
     [dyadic 1 1; dyadic 1 2] = (pre ++ r :: post)%list →
     Forall (λ r', is_Some (peerByHandshake two_peers !! random_code r')) pre →
     peerByHandshake two_peers !! random_code r = None →
     ∃ st',
       websocket_message uuid_validate part_000 9 [dyadic 1 1; dyadic 1 2] 1%nat
           HandshakeInitMessage two_peers
         = Returned st'
             [send 1%nat (HandshakeResponseMessage "B" (random_code r))]
       ∧ peerByHandshake st'
         = <[random_code r := 1%nat]> (peerByHandshake two_peers))
  ∧ (Forall (λ r', is_Some (peerByHandshake two_peers !! random_code r'))
       [dyadic 1 1; dyadic 1 2] →
     websocket_message uuid_validate part_000 9 [dyadic 1 1; dyadic 1 2] 1%nat
         HandshakeInitMessage two_peers
       = Looping)
  ∧ ((∀ c, 0 ≤ c < 9999 → is_Some (peerByHandshake two_peers !! c)) →
     Forall unit_interval [dyadic 1 1; dyadic 1 2] →
     websocket_message uuid_validate part_000 9 [dyadic 1 1; dyadic 1 2] 1%nat
         HandshakeInitMessage two_peers
       = Looping).
Proof.
  apply (C8_generator_loops_until_a_free_draw uuid_validate part_000
           two_peers 1%nat
           {| peerId := "B"; rooms := []; lastPing := 2; code := None |}
           9 [dyadic 1 1; dyadic 1 2]).
  - reflexivity.
  - reflexivity.
Defined.

(** ** The Room Index along runs *)

Lemma leave_room_wf v ws pid st roomId :
  rooms_wf v st → rooms_wf v (leave_room v ws pid st roomId).
Proof.
  intros Hwf r l. rewrite leave_room_peersByRoom.
  destruct (peersByRoom st !! roomId) as [room|] eqn:Hroom; [|exact (Hwf _ _)].
  destruct (deletes_empty_rooms v && bool_decide (Set_delete pid room = []))
    eqn:Hdelete.
  - rewrite lookup_delete. case_decide; [done|exact (Hwf _ _)].
  - rewrite lookup_insert. case_decide; [|exact (Hwf _ _)].
    intros [= <-]. split.
    + apply Set_delete_NoDup. by apply (Hwf roomId).
    + intros Hv Hempty. rewrite Hv in Hdelete. simpl in Hdelete.
      by apply bool_decide_eq_false in Hdelete.
Qed.

Lemma foldl_leave_room_wf v ws pid rs st :
  rooms_wf v st → rooms_wf v (foldl (leave_room v ws pid) st rs).
Proof.
  revert st. induction rs as [|r rs IH]; intros st Hwf; simpl; [done|].
  apply IH. by apply leave_room_wf.
Qed.

Lemma Set_add_nonempty x s : Set_add x s ≠ [].
Proof.
  intros Heq. assert (Hx : x ∈ Set_add x s) by (apply Set_add_elem; by right).
  rewrite Heq in Hx. by apply elem_of_nil in Hx.
Qed.

Lemma websocket_close_wf v ws st st' out :
  websocket_close v ws st = Returned st' out →
  rooms_wf v st → rooms_wf v st'.
Proof.
  unfold websocket_close. destruct (sockets st !! ws) as [peer|]; [|done].
  intros [= <- <-] Hwf.
  pose proof (foldl_leave_room_wf v ws (peerId peer) (rooms peer) st Hwf) as Hwf'.
  destruct (has_handshake v); [|done]. by destruct (code peer).
Qed.

Lemma handle_wf validate v ev st st' out :
  handle validate v ev st = Returned st' out →
  rooms_wf v st → rooms_wf v st'.
Proof.
  destruct ev as [cookie uuid4 now|ws|ws now random msg|ws]; simpl.
  - by intros [= <- <-].
  - unfold websocket_open. destruct (sockets st !! ws); [|done].
    by intros [= <- <-].
  - unfold websocket_message. destruct (sockets st !! ws) as [peer|]; [|done].
    destruct msg; try (by intros [= <- <-]).
    + destruct (validate room).
      * rewrite case_join_spec. intros [= <- <-] Hwf r l. simpl.
        rewrite lookup_insert. case_decide; [|exact (Hwf _ _)].
        intros [= <-]. split; [|intros _; apply Set_add_nonempty].
        apply Set_add_NoDup. unfold members. simpl.
        destruct (peersByRoom st !! room) as [l|] eqn:Hl; simpl; [|constructor].
        by apply (Hwf room).
      * destruct (websocket_close v ws _) as [st1 out1| |] eqn:Hclose; [|done..].
        intros [= <- <-] Hwf. by apply (websocket_close_wf _ _ _ _ _ Hclose).
    + unfold case_signal. case_decide; [by intros [= <- <-]|].
      simpl. by destruct (peerById st !! receiverPeerId); intros [= <- <-].
    + destruct (has_handshake v); [|by intros [= <- <-]].
      unfold case_handshake_begin. simpl.
      destruct (generate_code _ _); [|done]. by intros [= <- <-].
    + destruct (has_handshake v); [|by intros [= <- <-]].
      unfold case_handshake_join. simpl.
      destruct (peerByHandshake st !! code0); [|by intros [= <- <-]].
      destruct (_ !! n); [|done]. by intros [= <- <-].
  - apply websocket_close_wf.
Qed.

Lemma reachable_wf validate v st : reachable validate v st → rooms_wf v st.
Proof.
  induction 1 as [|st ev st' out _ IH Hstep]; [by intros r l|].
  by eapply handle_wf.
Qed.

Lemma run_reachable validate v evs st st' out :
  reachable validate v st →
  run validate v evs st = Returned st' out →
  reachable validate v st'.
Proof.
  revert st out. induction evs as [|ev evs IH]; intros st out Hst.
  - by intros [= <- <-].
  - intros (st1 & out1 & out2 & Hstep & Hrun & _)%run_cons.
    eapply IH; [|done]. by eapply reachable_step.
Qed.

(** X10. In the iteration that deletes emptied rooms, a room identifier is a
    key of the Room Index exactly when its member set is not empty, in every
    reachable state. *)
Lemma part_000_room_index_invariant validate st roomId :
  reachable validate part_000 st →
  is_Some (peersByRoom st !! roomId) ↔ members st roomId ≠ [].
Proof.
  intros Hwf%reachable_wf. unfold members.
  destruct (peersByRoom st !! roomId) as [room|] eqn:Hroom; simpl.
  - split; [|by eauto]. intros _. by apply (Hwf roomId).
  - split; [by intros [? [=]]|done].
Qed.

(** ** Rooms: the roster broadcast *)

Lemma one_member_reachable v : reachable uuid_validate v one_member.
Proof.
  apply (run_reachable uuid_validate v first_join initial one_member
           [ send 0%nat (SimplePeerInitMessage "A");
             publish example_room (SimplePeerJoinedMessage ["A"]) ]).
  - constructor.
  - destruct v; vm_compute; reflexivity.
Qed.

(** ** Rooms: disconnect *)

(** C1, on [src/app.ts] and on the second file of [src/unnamed/part_000]:
    after the only member of a room has disconnected, the room is still a key
    of the Room Index and its member set is empty.  The first file of
    [src/unnamed/part_000] deletes the entry
    (see [part_000_room_index_invariant]). *)
Theorem C1_emptied_room_stays_in_room_index :
  ∃ st out st2 out2 st3 out3,
    run uuid_validate app_ts join_then_close initial = Returned st out
    ∧ peersByRoom st !! example_room = Some []
    ∧ members st example_room = []
    ∧ run uuid_validate part_000_tail join_then_close initial = Returned st2 out2
    ∧ peersByRoom st2 !! example_room = Some []
    ∧ run uuid_validate part_000 join_then_close initial = Returned st3 out3
    ∧ peersByRoom st3 !! example_room = None.
Proof.
  eexists _, _, _, _, _, _.
  split; [vm_compute; reflexivity|].
  split; [vm_compute; reflexivity|].
  split; [vm_compute; reflexivity|].
  split; [vm_compute; reflexivity|].
  split; [vm_compute; reflexivity|].
  split; [vm_compute; reflexivity|].
  vm_compute. reflexivity.
Qed.

(** ** Pairing: disconnect *)

(** The cleanup of [close] deletes the code recorded in the socket's [code]
    field, so a peer that issued one code and disconnects leaves no entry
    for it. *)
Lemma close_deletes_recorded_code validate v st ws peer c st' out :
  has_handshake v = true →
  sockets st !! ws = Some peer →
  code peer = Some c →
  websocket_close v ws st = Returned st' out →
  peerByHandshake st' !! c = None ∧ out = []
  ∧ ∀ ws2 now random,
      is_Some (sockets st' !! ws2) →
      websocket_message validate v now random ws2 (HandshakeJoinMessage c) st'
        = Returned (touch ws2 now st') [].
Proof.
  intros Hv Hws Hcode. unfold websocket_close. rewrite Hws, Hv, Hcode.
  intros [= <- <-].
  assert (Habsent : ∀ m : gmap Z nat, delete c m !! c = None)
    by (intros; apply lookup_delete_eq).
  split; [apply Habsent|]. split; [done|].
  intros ws2 now random Hws2. apply handshake_join_absent; [done|apply Habsent].
Qed.

(** C2, when the peer issued two codes before disconnecting: [close] deletes
    only the code recorded last; the first one stays in the Pairing Table and
    a later [handshake-join] with it completes against the closed socket. *)
Theorem C2_first_of_two_codes_survives_close :
  ∃ st out st' ,
    run uuid_validate part_000 two_codes_then_close initial = Returned st out
    ∧ issued_codes out = [4999; 2499]
    ∧ peerById st !! "A" = None
    ∧ peerByHandshake st !! 2499 = None
    ∧ peerByHandshake st !! 4999 = Some 0%nat
    ∧ websocket_message uuid_validate part_000 3 [] 1%nat
          (HandshakeJoinMessage 4999) st
        = Returned st'
            [ send 1%nat (HandshakeCompleteMessage "B" "A");
              send 0%nat (HandshakeCompleteMessage "A" "B") ].
Proof.
  eexists _, _, _.
  split; [vm_compute; reflexivity|].
  split; [vm_compute; reflexivity|].
  split; [vm_compute; reflexivity|].
  split; [vm_compute; reflexivity|].
  split; [vm_compute; reflexivity|].
  vm_compute. reflexivity.
Qed.

(** ** Disconnect: what [close] removes and what it leaves *)

(** X1. Disconnecting a socket removes its identifier from the member set of
    every room it had joined, ends its subscription to each of them, and
    deletes its identifier from the Registry; no frame is sent to anyone. *)
Theorem close_removes_peer_from_rooms_and_registry
    (v : Variant) (st : Server) (ws : nat) (peer : ServerPeer) :
  sockets st !! ws = Some peer →
  ∃ st',
    websocket_close v ws st = Returned st' []
    ∧ peerById st' !! peerId peer = None
    ∧ ∀ r, r ∈ rooms peer →
           (peerId peer ∉ members st' r) ∧ ¬ subscribed st' ws r.
Proof.
  intros Hws.
  destruct (websocket_close_spec v st ws peer Hws)
    as (st' & Hclose & _ & Hreg & Hmem & _ & Htop).
  exists st'. split; [done|]. split.
  - rewrite Hreg. apply lookup_delete_eq.
  - intros r Hr. split.
    + rewrite Hmem. tauto.
    + rewrite Htop. tauto.
Qed.

Lemma close_removes_peer_witness :
  ∃ st',
    websocket_close app_ts 0%nat one_member = Returned st' []
    ∧ peerById st' !! "A" = None
    ∧ ∀ r, r ∈ [example_room] →
           ("A" ∉ members st' r) ∧ ¬ subscribed st' 0%nat r.
Proof.
  apply (close_removes_peer_from_rooms_and_registry app_ts one_member 0%nat
           {| peerId := "A"; rooms := [example_room]; lastPing := 1; code := None |}).
  reflexivity.
Defined.

(** X2. Disconnecting a socket touches nothing that belongs to others: every
    other identifier stays in exactly the member sets it was in, rooms the
    socket had not joined keep their entry, other sockets keep their
    subscriptions, other identifiers keep their Registry entry, and no
    socket's [data] object changes (the closed socket's room set is not
    cleared either). *)
Theorem close_spares_other_peers
    (v : Variant) (st : Server) (ws : nat) (peer : ServerPeer) :
  sockets st !! ws = Some peer →
  ∃ st',
    websocket_close v ws st = Returned st' []
    ∧ sockets st' = sockets st
    ∧ (∀ r x, x ≠ peerId peer → (x ∈ members st' r ↔ x ∈ members st r))
    ∧ (∀ r, r ∉ rooms peer → peersByRoom st' !! r = peersByRoom st !! r)
    ∧ (∀ w r, w ≠ ws → (subscribed st' w r ↔ subscribed st w r))
    ∧ (∀ pid, pid ≠ peerId peer → peerById st' !! pid = peerById st !! pid).
Proof.
  intros Hws.
  destruct (websocket_close_spec v st ws peer Hws)
    as (st' & Hclose & Hsock & Hreg & Hmem & Hother & Htop).
  exists st'. split; [done|]. split; [done|]. split; [|split; [done|split]].
  - intros r x Hx. rewrite Hmem. tauto.
  - intros w r Hw. rewrite Htop. tauto.
  - intros pid Hpid. rewrite Hreg. by apply lookup_delete_ne.
Qed.

Lemma close_spares_other_peers_witness :
  ∃ st',
    websocket_close part_000 1%nat two_peers = Returned st' []
    ∧ sockets st' = sockets two_peers
    ∧ (∀ r x, x ≠ "B" → (x ∈ members st' r ↔ x ∈ members two_peers r))
    ∧ (∀ r, r ∉ [] → peersByRoom st' !! r = peersByRoom two_peers !! r)
    ∧ (∀ w r, w ≠ 1%nat → (subscribed st' w r ↔ subscribed two_peers w r))
    ∧ (∀ pid, pid ≠ "B" → peerById st' !! pid = peerById two_peers !! pid).
Proof.
  apply (close_spares_other_peers part_000 two_peers 1%nat
           {| peerId := "B"; rooms := []; lastPing := 2; code := None |}).
  reflexivity.
Defined.

(** ** Connect: [fetch] and [open] *)

Lemma fetch_fresh v cookie uuid4 now st :
  sockets st !! (fetch v cookie uuid4 now st).2 = None.
Proof. simpl. apply not_elem_of_dom, is_fresh. Qed.

(** X3. [open] sends the socket exactly one frame, [init] with the socket's
    own identifier, and makes the Registry map that identifier to the socket
    (whatever it mapped it to before); nothing else changes.  From then on a
    [signal] frame addressed to that identifier, sent by any socket under its
    own identifier, is forwarded to the socket just opened. *)
Theorem open_greets_and_registers_for_signals
    (validate : string → bool) (v : Variant) (st : Server) (ws : nat)
    (peer : ServerPeer) :
  sockets st !! ws = Some peer →
  ∃ st',
    websocket_open ws st
      = Returned st' [send ws (SimplePeerInitMessage (peerId peer))]
    ∧ peerById st' !! peerId peer = Some ws
    ∧ (∀ pid, pid ≠ peerId peer → peerById st' !! pid = peerById st !! pid)
    ∧ sockets st' = sockets st ∧ topics st' = topics st
    ∧ peersByRoom st' = peersByRoom st
    ∧ peerByHandshake st' = peerByHandshake st
    ∧ ∀ ws2 sender now random room data,
        sockets st' !! ws2 = Some sender →
        websocket_message validate v now random ws2
            (SimplePeerSignalMessage room (peerId sender) (peerId peer) data) st'
          = Returned (touch ws2 now st')
              [send ws (SimplePeerSignalMessage room (peerId sender)
                          (peerId peer) data)].
Proof.
  intros Hws. unfold websocket_open. rewrite Hws.
  eexists. split; [reflexivity|]. simpl.
  split; [apply lookup_insert_eq|].
  split; [intros pid Hpid; by apply lookup_insert_ne|].
  do 4 (split; [reflexivity|]).
  intros ws2 sender now random room data Hws2.
  unfold websocket_message. simpl in Hws2. simpl. rewrite Hws2.
  unfold case_signal. simpl. rewrite decide_False by (by intros []).
  rewrite lookup_insert_eq. unfold touch. simpl. by rewrite Hws2.
Qed.

Lemma open_greets_witness :
  ∃ st',
    websocket_open 1%nat two_peers
      = Returned st' [send 1%nat (SimplePeerInitMessage "B")]
    ∧ peerById st' !! "B" = Some 1%nat
    ∧ (∀ pid, pid ≠ "B" → peerById st' !! pid = peerById two_peers !! pid)
    ∧ sockets st' = sockets two_peers ∧ topics st' = topics two_peers
    ∧ peersByRoom st' = peersByRoom two_peers
    ∧ peerByHandshake st' = peerByHandshake two_peers
    ∧ ∀ ws2 sender now random room data,
        sockets st' !! ws2 = Some sender →
        websocket_message uuid_validate part_000 now random ws2
            (SimplePeerSignalMessage room (peerId sender) "B" data) st'
          = Returned (touch ws2 now st')
              [send 1%nat (SimplePeerSignalMessage room (peerId sender)
                             "B" data)].
Proof.
  apply (open_greets_and_registers_for_signals uuid_validate part_000
           two_peers 1%nat
           {| peerId := "B"; rooms := []; lastPing := 2; code := None |}).
  reflexivity.
Defined.

(** X4. A new connection ([fetch] with a successful upgrade, then [open])
    gets a socket of its own with an empty room set and no code, receives
    [init] as its only frame, and is registered under the identifier it
    announces.  In the first file of [src/unnamed/part_000] that identifier
    is the [uid] cookie when the request carries a non-empty one, and the
    generated one otherwise; in the other two files it is always the
    generated one.  The [data] objects of the sockets that existed before are
    untouched. *)
Theorem new_connection_identity
    (validate : string → bool) (v : Variant) (st : Server)
    (cookie : option string) (uuid4 : string) (now : Z) :
  let ws := (fetch v cookie uuid4 now st).2 in
  ∃ st' uid,
    run validate v [Fetch cookie uuid4 now; Open ws] st
      = Returned st' [send ws (SimplePeerInitMessage uid)]
    ∧ sockets st !! ws = None
    ∧ sockets st' !! ws
      = Some {| peerId := uid; rooms := []; lastPing := now; code := None |}
    ∧ peerById st' !! uid = Some ws
    ∧ (∀ w p, sockets st !! w = Some p → sockets st' !! w = Some p)
    ∧ (v = part_000 → ∀ c, cookie = Some c → c ≠ "" → uid = c)
    ∧ (v = part_000 → cookie = None ∨ cookie = Some "" → uid = uuid4)
    ∧ (v ≠ part_000 → uid = uuid4).
Proof.
  intros ws. pose proof (fetch_fresh v cookie uuid4 now st) as Hfresh.
  fold ws in Hfresh.
  assert (Hold : ∀ w p, sockets st !! w = Some p → ws ≠ w).
  { intros w p Hw <-. by rewrite Hfresh in Hw. }
  simpl. unfold websocket_open. simpl.
  fold ws. rewrite lookup_insert_eq. simpl.
  eexists _, _. split; [reflexivity|]. split; [done|]. simpl.
  split; [apply lookup_insert_eq|]. split; [apply lookup_insert_eq|].
  split.
  { intros w p Hw. rewrite lookup_insert_ne; [done|]. by eapply Hold. }
  split; [|split].
  - intros -> c -> Hc. simpl. by destruct (decide (c = "")).
  - intros -> [->| ->]; simpl; [done|]. by destruct (decide ("" = "")).

  - intros Hv. by destruct v.
Qed.

(** ** What one frame can change *)

Lemma message_cases validate v now random ws msg st st' out :
  websocket_message validate v now random ws msg st = Returned st' out →
  ∃ peer peer',
    sockets st !! ws = Some peer
    ∧ sockets st' = <[ws := peer']> (sockets st)
    ∧ peerId peer' = peerId peer ∧ lastPing peer' = now
    ∧ ((∃ room,
          msg = SimplePeerJoinMessage room ∧ validate room = true
          ∧ rooms peer' = Set_add room (rooms peer)
          ∧ code peer' = code peer
          ∧ topics st' = {[ (ws, room) ]} ∪ topics st
          ∧ peersByRoom st'
            = <[room := Set_add (peerId peer) (members st room)]> (peersByRoom st)
          ∧ peerById st' = peerById st)
       ∨ (∃ room,
            msg = SimplePeerJoinMessage room ∧ validate room = false
            ∧ peer' = with_lastPing now peer
            ∧ out = [ws_close ws "Invalid ID"]
            ∧ websocket_close v ws (touch ws now st) = Returned st' [])
       ∨ (rooms peer' = rooms peer ∧ topics st' = topics st
          ∧ peersByRoom st' = peersByRoom st
          ∧ peerById st' = peerById st
          ∧ (∀ room, msg ≠ SimplePeerJoinMessage room)
          ∧ (code peer' = code peer ∨ msg = HandshakeInitMessage))).
Proof.
  intros Hmsg.
  destruct (sockets st !! ws) as [peer|] eqn:Hws;
    [|unfold websocket_message in Hmsg; by rewrite Hws in Hmsg].
  assert (Hplain :
    (∀ room, msg ≠ SimplePeerJoinMessage room) →
    Returned (set_socket ws (with_lastPing now peer) st) [] = Returned st' out →
    ∃ peer0 peer',
      Some peer = Some peer0
      ∧ sockets st' = <[ws := peer']> (sockets st)
      ∧ peerId peer' = peerId peer0 ∧ lastPing peer' = now
      ∧ ((∃ room,
            msg = SimplePeerJoinMessage room ∧ validate room = true
            ∧ rooms peer' = Set_add room (rooms peer0)
            ∧ code peer' = code peer0
            ∧ topics st' = {[ (ws, room) ]} ∪ topics st
            ∧ peersByRoom st'
              = <[room := Set_add (peerId peer0) (members st room)]> (peersByRoom st)
            ∧ peerById st' = peerById st)
         ∨ (∃ room,
              msg = SimplePeerJoinMessage room ∧ validate room = false
              ∧ peer' = with_lastPing now peer0
              ∧ out = [ws_close ws "Invalid ID"]
              ∧ websocket_close v ws (touch ws now st) = Returned st' [])
         ∨ (rooms peer' = rooms peer0 ∧ topics st' = topics st
            ∧ peersByRoom st' = peersByRoom st
            ∧ peerById st' = peerById st
            ∧ (∀ room, msg ≠ SimplePeerJoinMessage room)
            ∧ (code peer' = code peer0 ∨ msg = HandshakeInitMessage)))).
  { intros Hnojoin [= <- <-]. exists peer, (with_lastPing now peer).
    split_and!; try done. right. right. split_and!; try done. by left. }
  destruct msg.
  all: try (apply Hplain; [done|];
            unfold websocket_message in Hmsg; by rewrite Hws in Hmsg).
  - destruct (validate room) eqn:Hok.
    + unfold websocket_message in Hmsg.
      rewrite Hws, Hok, case_join_spec in Hmsg. injection Hmsg as <- <-.
      exists peer, (with_rooms (Set_add room (rooms peer)) (with_lastPing now peer)).
      split_and!; try done.
      * simpl. by rewrite insert_insert_eq.
      * left. exists room. split_and!; done.
    + destruct (rejected_join_is_close validate v now random ws peer room st Hws Hok)
        as (st1 & Hclose & Hrej).
      rewrite Hrej in Hmsg. injection Hmsg as <- <-.
      destruct (websocket_close_returned _ _ _ _ _ Hclose) as (_ & _ & _ & Hsock & _).
      exists peer, (with_lastPing now peer). split_and!; try done.
      * rewrite Hsock. by rewrite (touch_Some _ _ _ peer).
      * right. left. exists room. by split_and!.
  - unfold websocket_message in Hmsg. rewrite Hws in Hmsg.
    unfold case_signal in Hmsg. simpl in Hmsg.
    destruct (decide _); [by apply Hplain|].
    destruct (peerById st !! receiverPeerId); injection Hmsg as <- <-;
      exists peer, (with_lastPing now peer);
      (split_and!; try done; right; right; split_and!; try done; by left).
  - unfold websocket_message in Hmsg. rewrite Hws in Hmsg.
    destruct (has_handshake v); [|by apply Hplain].
    unfold case_handshake_begin in Hmsg. simpl in Hmsg.
    destruct (generate_code _ _) as [c|]; [|done]. injection Hmsg as <- <-.
    exists peer, (with_code c (with_lastPing now peer)).
    split_and!; try done.
    + simpl. by rewrite insert_insert_eq.
    + right. right. split_and!; try done. by right.
  - unfold websocket_message in Hmsg. rewrite Hws in Hmsg.
    destruct (has_handshake v); [|by apply Hplain].
    unfold case_handshake_join in Hmsg. simpl in Hmsg.
    destruct (peerByHandshake st !! code0); [|by apply Hplain].
    destruct (_ !! n); [|done]. injection Hmsg as <- <-.
    exists peer, (with_lastPing now peer).
    split_and!; try done. right. right. split_and!; try done. by left.
Qed.

(** X5. A frame that the [message] handler finishes handling changes, among
    the [data] objects, only the sender's: its [lastPing] becomes the current
    time whatever the frame is, its identifier stays, its room set only
    grows.  A rejected [join] ends with the sender's disconnect: the handler
    returns the state that [close] leaves after the [lastPing] refresh.
    Every other frame leaves the Registry alone; the Room Index, the
    subscriptions and the sender's room set change on [join] frames only, and
    the Pairing Table and the sender's code change on handshake frames (and
    on a rejected [join]) only. *)
Theorem frame_changes_only_the_senders_record
    (validate : string → bool) (v : Variant) (st : Server) (ws : nat)
    (now : Z) (random : list double) (msg : PeerMessage) (st' : Server)
    (out : list Effect) :
  websocket_message validate v now random ws msg st = Returned st' out →
  ∃ peer peer',
    sockets st !! ws = Some peer ∧ sockets st' !! ws = Some peer'
    ∧ peerId peer' = peerId peer ∧ lastPing peer' = now
    ∧ (∀ r, r ∈ rooms peer → r ∈ rooms peer')
    ∧ (∀ w, w ≠ ws → sockets st' !! w = sockets st !! w)
    ∧ (∀ room, msg = SimplePeerJoinMessage room → validate room = false →
         out = [ws_close ws "Invalid ID"]
         ∧ websocket_close v ws (touch ws now st) = Returned st' [])
    ∧ ((∀ room, msg = SimplePeerJoinMessage room → validate room = true) →
       peerById st' = peerById st)
    ∧ ((∀ room, msg ≠ SimplePeerJoinMessage room) →
       rooms peer' = rooms peer ∧ topics st' = topics st
       ∧ peersByRoom st' = peersByRoom st)
    ∧ ((∀ room, msg = SimplePeerJoinMessage room → validate room = true) →
       msg ≠ HandshakeInitMessage → (∀ c, msg ≠ HandshakeJoinMessage c) →
       code peer' = code peer ∧ peerByHandshake st' = peerByHandshake st).
Proof.
  intros Hmsg.
  destruct (message_cases _ _ _ _ _ _ _ _ _ Hmsg)
    as (peer & peer' & Hws & Hsock & Hid & Hping & Hcases).
  exists peer, peer'. split; [done|].
  split; [rewrite Hsock; apply lookup_insert_eq|].
  split; [done|]. split; [done|].
  split; [|split; [|split; [|split; [|split]]]].
  - intros r Hr.
    destruct Hcases as [(room & _ & _ & -> & _)|[(room & _ & _ & -> & _)|(-> & _)]];
      [|done..].
    apply Set_add_elem. by left.
  - intros w Hw. rewrite Hsock. by apply lookup_insert_ne.
  - intros room -> Hbad.
    destruct Hcases as [(? & [= <-] & ? & _)|[(? & _ & _ & _ & ? & ?)|(_ & _ & _ & _ & Hno & _)]].
    + congruence.
    + done.
    + by destruct (Hno room).
  - intros Hvalid.
    destruct Hcases as [(? & _ & _ & _ & _ & _ & _ & ?)|[(room & -> & Hbad & _)|(_ & _ & _ & ? & _)]];
      [done| |done].
    rewrite (Hvalid room eq_refl) in Hbad. done.
  - intros Hnojoin.
    destruct Hcases as [(room & -> & _)|[(room & -> & _)|(? & ? & ? & _)]];
      [by destruct (Hnojoin room)..|done].
  - intros Hvalid Hnobegin Hnojoin. split.
    + destruct Hcases as [(room & _ & _ & _ & ? & _)|[(room & _ & _ & -> & _)
                         |(_ & _ & _ & _ & _ & [?|?])]]; done.
    + destruct (handle_table validate v (Message ws now random msg) st st' out Hmsg)
        as [[? _]|[(? & ? & ? & ? & [= _ _ _ ->] & _)|(c & Hrem & _)]]; [done..|].
      simpl in Hrem. destruct msg; try done.
      * rewrite (Hvalid room eq_refl) in Hrem. done.
      * by destruct (Hnojoin code0).
Qed.

Lemma frame_changes_witness :
  ∃ peer peer',
    sockets two_peers !! 0%nat = Some peer
    ∧ sockets (touch 0%nat 5 two_peers) !! 0%nat = Some peer'
    ∧ peerId peer' = peerId peer ∧ lastPing peer' = 5
    ∧ (∀ r, r ∈ rooms peer → r ∈ rooms peer')
    ∧ (∀ w, w ≠ 0%nat →
         sockets (touch 0%nat 5 two_peers) !! w = sockets two_peers !! w)
    ∧ (∀ room,
         SimplePeerSignalMessage example_room "B" "A" "x"
           = SimplePeerJoinMessage room →
         uuid_validate room = false →
         [] = [ws_close 0%nat "Invalid ID"]
         ∧ websocket_close part_000 0%nat (touch 0%nat 5 two_peers)
           = Returned (touch 0%nat 5 two_peers) [])
    ∧ ((∀ room,
          SimplePeerSignalMessage example_room "B" "A" "x"
            = SimplePeerJoinMessage room →
          uuid_validate room = true) →
       peerById (touch 0%nat 5 two_peers) = peerById two_peers)
    ∧ ((∀ room, SimplePeerSignalMessage example_room "B" "A" "x"
                ≠ SimplePeerJoinMessage room) →
       rooms peer' = rooms peer
       ∧ topics (touch 0%nat 5 two_peers) = topics two_peers
       ∧ peersByRoom (touch 0%nat 5 two_peers) = peersByRoom two_peers)
    ∧ ((∀ room,
          SimplePeerSignalMessage example_room "B" "A" "x"
            = SimplePeerJoinMessage room →
          uuid_validate room = true) →
       SimplePeerSignalMessage example_room "B" "A" "x" ≠ HandshakeInitMessage →
       (∀ c, SimplePeerSignalMessage example_room "B" "A" "x"
             ≠ HandshakeJoinMessage c) →
       code peer' = code peer
       ∧ peerByHandshake (touch 0%nat 5 two_peers) = peerByHandshake two_peers).
Proof.
  apply (frame_changes_only_the_senders_record uuid_validate part_000
           two_peers 0%nat 5 [] (SimplePeerSignalMessage example_room "B" "A" "x")
           (touch 0%nat 5 two_peers) []).
  reflexivity.
Defined.

(** X6. [ping] frames, frames of a server-to-client type and frames of an
    unknown type are ignored, and so are the handshake frames in
    [src/app.ts]: nothing is sent, the socket stays open, and the state
    changes in the sender's [lastPing] only. *)
Theorem frames_outside_the_protocol_are_ignored
    (validate : string → bool) (v : Variant) (st : Server) (ws : nat)
    (peer : ServerPeer) (now : Z) (random : list double) (msg : PeerMessage) :
  sockets st !! ws = Some peer →
  ignored v msg →
  websocket_message validate v now random ws msg st
    = Returned (touch ws now st) []
  ∧ same_but_lastPing st (touch ws now st).
Proof.
  intros Hws Hmsg. split; [|apply touch_same_but_lastPing].
  unfold websocket_message. rewrite Hws, (touch_Some _ _ _ peer) by done.
  destruct msg; simpl in Hmsg; try done; by rewrite Hmsg.
Qed.

Lemma frames_ignored_witness :
  websocket_message uuid_validate app_ts 5 [] 0%nat HandshakeInitMessage two_peers
    = Returned (touch 0%nat 5 two_peers) []
  ∧ same_but_lastPing two_peers (touch 0%nat 5 two_peers).
Proof.
  apply (frames_outside_the_protocol_are_ignored uuid_validate app_ts two_peers
           0%nat
           {| peerId := "A"; rooms := []; lastPing := 1; code := Some 4999 |}).
  - reflexivity.
  - reflexivity.
Defined.

(** ** [src/app.ts] has no pairing *)

Lemma app_ts_handle validate ev st :
  ∃ st' out,
    (handle validate app_ts ev st = Returned st' out
     ∧ peerByHandshake st' = peerByHandshake st
     ∧ Forall (λ e, ¬ handshake_frame e) out)
    ∨ handle validate app_ts ev st = NoSocket.
Proof.
  assert (Hnil : Forall (λ e, ¬ handshake_frame e) []) by constructor.
  destruct ev as [cookie uuid4 now|ws|ws now random msg|ws]; simpl.
  - eexists _, _. left. by split_and!.
  - unfold websocket_open. destruct (sockets st !! ws) as [peer|];
      [|exists st, []; by right].
    eexists _, _. left. split_and!; [done..|]. repeat constructor. by intros [].
  - unfold websocket_message. destruct (sockets st !! ws) as [peer|] eqn:Hws;
      [|exists st, []; by right].
    destruct msg; try (eexists _, _; left; by split_and!).
    + destruct (validate room) eqn:Hok.
      * rewrite case_join_spec. eexists _, _. left. split_and!; [done..|].
        repeat constructor. by intros [].
      * destruct (rejected_join_is_close validate app_ts now random ws peer room
                    st Hws Hok) as (st1 & Hclose & _).
        rewrite (touch_Some _ _ _ peer) in Hclose by done. rewrite Hclose.
        eexists _, _. left. split_and!; [done| |].
        -- by rewrite (websocket_close_table _ _ _ _ _ _
                         (lookup_insert_eq _ _ _) Hclose).
        -- repeat constructor. by intros [].
    + unfold case_signal. case_decide; [eexists _, _; left; by split_and!|].
      simpl. destruct (peerById st !! receiverPeerId);
        eexists _, _; left; (split_and!; [done..|]); [|done].
      repeat constructor. by intros [].
  - unfold websocket_close. destruct (sockets st !! ws) as [peer|];
      [|exists st, []; by right].
    eexists _, _. left. split_and!; [done| |done]. simpl.
    apply foldl_leave_room_keeps.
Qed.

(** X7. [src/app.ts] takes no part in the pairing handshake: none of its
    callbacks stays in a loop, and along every run that starts with an empty
    Pairing Table the table stays empty and no [handshake-response] or
    [handshake-complete] frame is ever sent. *)
Theorem app_ts_never_pairs (validate : string → bool) :
  (∀ ev st, handle validate app_ts ev st ≠ Looping)
  ∧ (∀ evs st st' out,
       peerByHandshake st = ∅ →
       run validate app_ts evs st = Returned st' out →
       peerByHandshake st' = ∅ ∧ Forall (λ e, ¬ handshake_frame e) out).
Proof.
  split.
  - intros ev st.
    destruct (app_ts_handle validate ev st) as (st' & out & [(-> & _)| ->]); done.
  - intros evs. induction evs as [|ev evs IH]; intros st st' out Hempty.
    + intros [= <- <-]. split; [done|constructor].
    + intros (st1 & out1 & out2 & Hstep & Hrun & ->)%run_cons.
      destruct (app_ts_handle validate ev st)
        as (st1' & out1' & [(Hstep' & Htbl & Hout)|Hno]); [|congruence].
      rewrite Hstep' in Hstep. injection Hstep as <- <-.
      rewrite Hempty in Htbl.
      destruct (IH _ _ _ Htbl Hrun) as [Hfinal Hout2].
      split; [done|]. by apply Forall_app.
Qed.

(** ** Who is behind a roster entry, a subscription, a Registry entry *)

(** No callback drops a socket's [data] object, changes its identifier or
    shrinks its room set. *)
Lemma handle_sockets_grow validate v ev st st' out w p :
  handle validate v ev st = Returned st' out →
  sockets st !! w = Some p →
  ∃ p', sockets st' !! w = Some p' ∧ peerId p' = peerId p
        ∧ ∀ r, r ∈ rooms p → r ∈ rooms p'.
Proof.
  intros Hstep Hw.
  destruct ev as [cookie uuid4 now|ws|ws now random msg|ws]; simpl in Hstep.
  - injection Hstep as <- <-. exists p. split_and!; [|done..].
    simpl. rewrite lookup_insert_ne; [done|]. intros Heq.
    pose proof (fetch_fresh v cookie uuid4 now st) as Hfresh. simpl in Hfresh.
    rewrite Heq in Hfresh. congruence.
  - unfold websocket_open in Hstep. destruct (sockets st !! ws); [|done].
    injection Hstep as <- <-. by exists p.
  - destruct (message_cases _ _ _ _ _ _ _ _ _ Hstep)
      as (peer & peer' & Hws & Hsock & Hid & _ & Hcases).
    rewrite Hsock. destruct (decide (w = ws)) as [->|Hne].
    + rewrite lookup_insert_eq. exists peer'. rewrite Hws in Hw.
      injection Hw as ->. split_and!; [done..|].
      intros r Hr.
      destruct Hcases as [(room & _ & _ & -> & _)|[(room & _ & _ & -> & _)|(-> & _)]];
        [|done..].
      apply Set_add_elem. by left.
    + rewrite lookup_insert_ne by done. by exists p.
  - destruct (sockets st !! ws) as [peer|] eqn:Hws;
      [|unfold websocket_close in Hstep; by rewrite Hws in Hstep].
    destruct (websocket_close_spec v st ws peer Hws) as (st1 & Hclose & Hsock & _).
    rewrite Hclose in Hstep. injection Hstep as <- <-.
    rewrite Hsock. by exists p.
Qed.

Lemma handle_membership_backed validate v ev st st' out :
  handle validate v ev st = Returned st' out →
  membership_backed st → membership_backed st'.
Proof.
  intros Hstep [Hsub Hmem].
  assert (Hgrow : ∀ w p r, sockets st !! w = Some p → r ∈ rooms p →
            ∃ p', sockets st' !! w = Some p' ∧ peerId p' = peerId p ∧ r ∈ rooms p').
  { intros w p r Hw Hr.
    destruct (handle_sockets_grow _ _ _ _ _ _ _ _ Hstep Hw) as (p' & ? & ? & Hrooms).
    exists p'. split_and!; [done..|]. by apply Hrooms. }
  assert (Hsub' : ∀ ws r, subscribed st ws r →
            ∃ p, sockets st' !! ws = Some p ∧ r ∈ rooms p).
  { intros ws r (p & Hp & Hr)%Hsub.
    destruct (Hgrow _ _ _ Hp Hr) as (p' & ? & _ & ?). by exists p'. }
  assert (Hmem' : ∀ r x, x ∈ members st r →
            ∃ ws p, sockets st' !! ws = Some p ∧ peerId p = x ∧ r ∈ rooms p).
  { intros r x (ws & p & Hp & Hx & Hr)%Hmem.
    destruct (Hgrow _ _ _ Hp Hr) as (p' & ? & ? & ?).
    exists ws, p'. split_and!; [done| |done]. congruence. }
  destruct ev as [cookie uuid4 now|ws|ws now random msg|ws]; simpl in Hstep.
  - injection Hstep as <- <-. split; [exact Hsub'|exact Hmem'].
  - unfold websocket_open in Hstep. destruct (sockets st !! ws); [|done].
    injection Hstep as <- <-. split; [exact Hsub'|exact Hmem'].
  - destruct (message_cases _ _ _ _ _ _ _ _ _ Hstep)
      as (peer & peer' & Hws & Hsock & Hid & _ & Hcases).
    assert (Hpeer' : sockets st' !! ws = Some peer')
      by (rewrite Hsock; apply lookup_insert_eq).
    destruct Hcases as [(room & _ & _ & Hrooms & _ & Htop & Hidx & _)
                       |[(room & _ & _ & _ & _ & Hclose)
                        |(_ & Htop & Hidx & _)]].
    2: { destruct (close_after_touch _ _ _ _ _ _ Hws Hclose)
           as (_ & _ & Hmem1 & Hsub1).
         split.
         - intros w r [Hin _]%Hsub1. by apply Hsub'.
         - intros r x [Hin _]%Hmem1. by apply Hmem'. }
    + assert (Hroom : room ∈ rooms peer')
        by (rewrite Hrooms; apply Set_add_elem; by right).
      split.
      * intros w r. unfold subscribed. rewrite Htop, elem_of_union, elem_of_singleton.
        intros [[= -> ->]|Hin]; [by exists peer'|by apply Hsub'].
      * intros r x. unfold members. rewrite Hidx, lookup_insert.
        case_decide as Hr; [|apply Hmem'].
        subst r. simpl. intros [Hx| ->]%Set_add_elem; [by apply Hmem'|].
        by exists ws, peer'.
    + split.
      * intros w r. unfold subscribed. rewrite Htop. apply Hsub'.
      * intros r x. unfold members. rewrite Hidx. apply Hmem'.
  - destruct (sockets st !! ws) as [peer|] eqn:Hws;
      [|unfold websocket_close in Hstep; by rewrite Hws in Hstep].
    destruct (websocket_close_spec v st ws peer Hws)
      as (st1 & Hclose & _ & _ & Hmem1 & _ & Hsub1).
    rewrite Hclose in Hstep. injection Hstep as <- <-. split.
    + intros w r [Hin _]%Hsub1. by apply Hsub'.
    + intros r x [Hin _]%Hmem1. by apply Hmem'.
Qed.

(** X8. In every state the server can reach, every socket subscribed to a
    room's topic has that room in its room set, and every identifier listed
    in a room's member set is the identifier of a socket that has that room
    in its room set: rosters never list an identifier that did not join. *)
Theorem rosters_and_subscriptions_come_from_joins
    (validate : string → bool) (v : Variant) (st : Server) :
  reachable validate v st → membership_backed st.
Proof.
  induction 1 as [|st ev st' out _ IH Hstep].
  - split.
    + intros ws r Hin. unfold subscribed in Hin. simpl in Hin.
      by apply elem_of_empty in Hin.
    + intros r x Hin. unfold members in Hin. simpl in Hin.
      rewrite lookup_empty in Hin. by apply elem_of_nil in Hin.
  - by eapply handle_membership_backed.
Qed.

Lemma rosters_come_from_joins_witness : membership_backed one_member.
Proof.
  apply (rosters_and_subscriptions_come_from_joins uuid_validate part_000
           one_member).
  apply one_member_reachable.
Defined.

Lemma handle_registry_names_owner validate v ev st st' out :
  handle validate v ev st = Returned st' out →
  registry_names_owner st → registry_names_owner st'.
Proof.
  intros Hstep Hreg.
  assert (Hkeep : ∀ pid ws, peerById st !! pid = Some ws →
            ∃ p, sockets st' !! ws = Some p ∧ peerId p = pid).
  { intros pid ws (p & Hp & Hpid)%Hreg.
    destruct (handle_sockets_grow _ _ _ _ _ _ _ _ Hstep Hp) as (p' & ? & ? & _).
    exists p'. split; [done|congruence]. }
  intros pid ws.
  destruct (handle_peerById _ _ _ _ _ _ Hstep)
    as [->|[(ws0 & peer & Hws0 & ->)|(pid' & ->)]].
  - apply Hkeep.
  - rewrite lookup_insert. case_decide as Hpid; [|apply Hkeep].
    intros [= <-].
    destruct (handle_sockets_grow _ _ _ _ _ _ _ _ Hstep Hws0) as (p' & ? & ? & _).
    exists p'. split; [done|congruence].
  - rewrite lookup_delete. case_decide; [done|apply Hkeep].
Qed.

(** X9. In every state the server can reach, the socket that the Registry
    holds for an identifier carries that identifier: a [signal] frame is
    only ever forwarded to a socket whose own identifier is the frame's
    [receiverPeerId]. *)
Theorem signals_reach_only_the_named_peer
    (validate : string → bool) (v : Variant) (st : Server) (ws : nat)
    (now : Z) (random : list double) (room senderPeerId receiverPeerId data : string)
    (st' : Server) (out : list Effect) (receiver : nat) (frame : PeerMessage) :
  reachable validate v st →
  websocket_message validate v now random ws
      (SimplePeerSignalMessage room senderPeerId receiverPeerId data) st
    = Returned st' out →
  send receiver frame ∈ out →
  frame = SimplePeerSignalMessage room senderPeerId receiverPeerId data
  ∧ ∃ p, sockets st !! receiver = Some p ∧ peerId p = receiverPeerId.
Proof.
  intros Hreach Hmsg Hin.
  assert (Hreg : registry_names_owner st).
  { clear Hmsg Hin. induction Hreach as [|st0 ev st1 out1 _ IH Hstep].
    - by intros pid w Hw.
    - by eapply handle_registry_names_owner. }
  unfold websocket_message in Hmsg.
  destruct (sockets st !! ws) as [peer|]; [|done].
  unfold case_signal in Hmsg. simpl in Hmsg.
  destruct (decide (senderPeerId ≠ peerId peer)).
  - injection Hmsg as <- <-. by apply elem_of_nil in Hin.
  - destruct (peerById st !! receiverPeerId) as [w|] eqn:Hw.
    + injection Hmsg as <- <-.
      apply list_elem_of_singleton in Hin. injection Hin as -> ->.
      split; [done|]. by apply Hreg.
    + injection Hmsg as <- <-. by apply elem_of_nil in Hin.
Qed.

Lemma two_peers_reachable : reachable uuid_validate part_000 two_peers.
Proof.
  apply (run_reachable uuid_validate part_000 two_connect initial two_peers
           [ send 0%nat (SimplePeerInitMessage "A");
             send 1%nat (SimplePeerInitMessage "B");
             send 0%nat (HandshakeResponseMessage "A" 4999) ]).
  - constructor.
  - vm_compute. reflexivity.
Qed.

Lemma member_and_guest_reachable v :
  reachable uuid_validate v member_and_guest.
Proof.
  apply (run_reachable uuid_validate v member_and_guest_run initial
           member_and_guest
           [ send 0%nat (SimplePeerInitMessage "A");
             publish example_room (SimplePeerJoinedMessage ["A"]);
             send 1%nat (SimplePeerInitMessage "B") ]).
  - constructor.
  - destruct v; vm_compute; reflexivity.
Qed.

Lemma signals_reach_witness :
  SimplePeerSignalMessage example_room "A" "B" "offer"
    = SimplePeerSignalMessage example_room "A" "B" "offer"
  ∧ ∃ p, sockets two_peers !! 1%nat = Some p ∧ peerId p = "B".
Proof.
  apply (signals_reach_only_the_named_peer uuid_validate part_000 two_peers
           0%nat 9 [] example_room "A" "B" "offer"
           (touch 0%nat 9 two_peers)
           [send 1%nat (SimplePeerSignalMessage example_room "A" "B" "offer")]
           1%nat).
  - apply two_peers_reachable.
  - reflexivity.
  - apply list_elem_of_here.
Defined.

Lemma room_index_invariant_witness :
  is_Some (peersByRoom one_member !! example_room)
  ↔ members one_member example_room ≠ [].
Proof.
  apply (part_000_room_index_invariant uuid_validate one_member example_room).
  apply one_member_reachable.
Defined.

(** ** Disconnect and the Pairing Table *)

(** X11. In the files that have the handshake, [close] deletes from the
    Pairing Table the code recorded in the socket's [code] field, after which
    a [handshake-join] with that code from any socket sends nothing; every
    other entry of the table is left as it was, and a socket that never
    asked for a code leaves the whole table as it was. *)
Theorem close_cleans_only_the_recorded_code
    (validate : string → bool) (v : Variant) (st : Server) (ws : nat)
    (peer : ServerPeer) :
  has_handshake v = true →
  sockets st !! ws = Some peer →
  ∃ st',
    websocket_close v ws st = Returned st' []
    ∧ (∀ c, code peer = Some c →
         peerByHandshake st' !! c = None
         ∧ ∀ ws2 now random,
             is_Some (sockets st' !! ws2) →
             websocket_message validate v now random ws2
                 (HandshakeJoinMessage c) st'
               = Returned (touch ws2 now st') [])
    ∧ (∀ c, code peer ≠ Some c →
         peerByHandshake st' !! c = peerByHandshake st !! c)
    ∧ (code peer = None → peerByHandshake st' = peerByHandshake st).
Proof.
  intros Hv Hws. unfold websocket_close. rewrite Hws, Hv.
  destruct (foldl_leave_room_keeps v ws (peerId peer) (rooms peer) st)
    as (_ & _ & Htbl).
  eexists. split; [reflexivity|].
  destruct (code peer) as [c0|]; simpl.
  - split; [|split; [|done]].
    + intros c [= <-].
      assert (Habsent : ∀ m : gmap Z nat, delete c0 m !! c0 = None)
        by (intros; apply lookup_delete_eq).
      split; [apply Habsent|]. intros ws2 now random Hws2.
      apply handshake_join_absent; [done|]. simpl. apply Habsent.
    + intros c Hc. rewrite Htbl. apply lookup_delete_ne. by intros ->.
  - split; [by intros c [=]|]. split; [by intros c _; rewrite Htbl|done].
Qed.

Lemma close_cleans_witness :
  ∃ st',
    websocket_close part_000 0%nat two_peers = Returned st' []
    ∧ (∀ c, Some 4999 = Some c →
         peerByHandshake st' !! c = None
         ∧ ∀ ws2 now random,
             is_Some (sockets st' !! ws2) →
             websocket_message uuid_validate part_000 now random ws2
                 (HandshakeJoinMessage c) st'
               = Returned (touch ws2 now st') [])
    ∧ (∀ c, Some 4999 ≠ Some c →
         peerByHandshake st' !! c = peerByHandshake two_peers !! c)
    ∧ (Some 4999 = None → peerByHandshake st' = peerByHandshake two_peers).
Proof.
  apply (close_cleans_only_the_recorded_code uuid_validate part_000 two_peers
           0%nat
           {| peerId := "A"; rooms := []; lastPing := 1; code := Some 4999 |}).
  - reflexivity.
  - reflexivity.
Defined.

(** ** Rosters keep the order of arrival *)

(** X12. When a socket joins a room that does not list its identifier yet,
    the roster that is broadcast is the roster before the join, in the same
    order, followed by the newcomer's identifier: a first join yields the
    one-element roster, and members keep their position as others arrive. *)
Theorem join_appends_the_newcomer
    (validate : string → bool) (v : Variant) (st : Server) (ws : nat)
    (peer : ServerPeer) (now : Z) (random : list double) (room : string) :
  sockets st !! ws = Some peer →
  validate room = true →
  peerId peer ∉ members st room →
  ∃ st',
    websocket_message validate v now random ws (SimplePeerJoinMessage room) st
      = Returned st'
          [publish room
             (SimplePeerJoinedMessage (members st room ++ [peerId peer]))]
    ∧ members st' room = (members st room ++ [peerId peer])%list
    ∧ (peersByRoom st !! room = None →
       members st' room = [peerId peer]).
Proof.
  intros Hws Hok Hnew. unfold websocket_message.
  rewrite Hws, Hok, case_join_spec.
  assert (Hm : members (set_socket ws (with_lastPing now peer) st) room
               = members st room) by done.
  assert (Hadd : Set_add (peerId peer) (members st room)
                 = (members st room ++ [peerId peer])%list)
    by (unfold Set_add; by rewrite decide_False).
  rewrite Hm. simpl. rewrite Hadd. eexists. split; [reflexivity|].
  assert (Hafter : ∀ (m : gmap string (list string)) l,
            default [] (<[room := l]> m !! room) = l)
    by (intros; by rewrite lookup_insert_eq).
  split; [apply Hafter|]. intros Hnone. unfold members at 1. simpl.
  rewrite Hafter. unfold members. by rewrite Hnone.
Qed.

Lemma join_appends_witness :
  ∃ st',
    websocket_message uuid_validate app_ts 5 [] 1%nat
        (SimplePeerJoinMessage example_room) member_and_guest
      = Returned st'
          [publish example_room
             (SimplePeerJoinedMessage
                (members member_and_guest example_room ++ ["B"]))]
    ∧ members st' example_room
      = (members member_and_guest example_room ++ ["B"])%list
    ∧ (peersByRoom member_and_guest !! example_room = None →
       members st' example_room = ["B"]).
Proof.
  apply (join_appends_the_newcomer uuid_validate app_ts member_and_guest 1%nat
           {| peerId := "B"; rooms := []; lastPing := 2; code := None |}).
  - reflexivity.
  - vm_compute. reflexivity.
  - vm_compute. intros Hin. inversion Hin as [|? ? ? Hin']. inversion Hin'.
Defined.

(** ** Callbacks in sequence *)

Lemma run_two validate v e1 e2 st st1 out1 st2 out2 :
  handle validate v e1 st = Returned st1 out1 →
  handle validate v e2 st1 = Returned st2 out2 →
  run validate v [e1; e2] st = Returned st2 (out1 ++ out2)%list.
Proof.
  intros H1 H2. simpl. simpl in H1, H2. rewrite H1, H2.
  by rewrite app_nil_r.
Qed.

(** X13. A socket that is in no room, joins a room that does not list its
    identifier and then disconnects leaves every member set as it was, in
    the same order.  The Room Index itself is as it was whenever the room
    existed before the join, and, in the file that deletes emptied rooms,
    also when the join created the room. *)
Theorem join_then_close_restores_member_sets
    (validate : string → bool) (v : Variant) (st : Server) (ws : nat)
    (peer : ServerPeer) (now : Z) (random : list double) (room : string) :
  reachable validate v st →
  sockets st !! ws = Some peer →
  rooms peer = [] →
  validate room = true →
  peerId peer ∉ members st room →
  ∃ st',
    run validate v
        [Message ws now random (SimplePeerJoinMessage room); Close ws] st
      = Returned st'
          [publish room
             (SimplePeerJoinedMessage (members st room ++ [peerId peer]))]
    ∧ (∀ r, members st' r = members st r)
    ∧ (is_Some (peersByRoom st !! room) → peersByRoom st' = peersByRoom st)
    ∧ (deletes_empty_rooms v = true → peersByRoom st' = peersByRoom st).
Proof.
  intros Hwf%reachable_wf Hws Hrooms Hok Hnew.
  assert (Hadd : Set_add (peerId peer) (members st room)
                 = (members st room ++ [peerId peer])%list)
    by (unfold Set_add; by rewrite decide_False).
  set (peer1 := with_rooms [room] (with_lastPing now peer)).
  set (st1 :=
    set_topics ({[ (ws, room) ]} ∪ topics st)
      (set_peersByRoom
         (<[room := (members st room ++ [peerId peer])%list]> (peersByRoom st))
         (set_socket ws peer1 (set_socket ws (with_lastPing now peer) st)))).
  assert (Hjoin : handle validate v
            (Message ws now random (SimplePeerJoinMessage room)) st
            = Returned st1
                [publish room
                   (SimplePeerJoinedMessage (members st room ++ [peerId peer]))]).
  { simpl. unfold websocket_message. rewrite Hws, Hok, case_join_spec.
    assert (Hm : members (set_socket ws (with_lastPing now peer) st) room
                 = members st room) by done.
    rewrite Hm. simpl. rewrite Hadd, Hrooms. done. }
  assert (Hws1 : sockets st1 !! ws = Some peer1) by apply lookup_insert_eq.
  destruct (websocket_close_rooms v st1 ws peer1 Hws1) as (st' & Hclose & Hidx).
  exists st'. split.
  { by rewrite (run_two validate v _ (Close ws) _ _ _ _ _ Hjoin Hclose). }
  assert (Hdel : Set_delete (peerId peer) (members st room ++ [peerId peer])
                 = members st room)
    by (rewrite <- Hadd; by apply Set_delete_add).
  assert (Hfinal : peersByRoom st'
    = if deletes_empty_rooms v && bool_decide (members st room = [])
      then delete room (peersByRoom st)
      else <[room := members st room]> (peersByRoom st)).
  { rewrite Hidx. simpl. rewrite leave_room_peersByRoom. simpl.
    rewrite lookup_insert_eq, Hdel.
    destruct (deletes_empty_rooms v && _).
    - apply delete_insert_eq.
    - apply insert_insert_eq. }
  assert (Hkey : ∀ l, peersByRoom st !! room = Some l → members st room = l)
    by (intros l Hl; unfold members; by rewrite Hl).
  assert (Hsame : is_Some (peersByRoom st !! room) →
            peersByRoom st' = peersByRoom st).
  { intros [l Hl]. rewrite Hfinal, (Hkey l Hl).
    destruct (deletes_empty_rooms v) eqn:Hv; simpl.
    - destruct (Hwf room l Hl) as [_ Hne]. rewrite bool_decide_eq_false_2 by auto.
      by apply insert_id.
    - by apply insert_id. }
  split; [|split; [done|]].
  - intros r. unfold members. rewrite Hfinal.
    destruct (deletes_empty_rooms v && bool_decide (members st room = []))
      eqn:Hcase.
    + apply andb_true_iff in Hcase as [_ Hempty%bool_decide_eq_true].
      rewrite lookup_delete. case_decide as Hr; [|done].
      subst r. simpl. unfold members in Hempty. by rewrite Hempty.
    + rewrite lookup_insert. case_decide as Hr; [|done]. by subst r.
  - intros Hv.
    destruct (peersByRoom st !! room) as [l|] eqn:Hl; [by apply Hsame|].
    rewrite Hfinal, Hv. unfold members. rewrite Hl. simpl.
    by apply delete_id.
Qed.

Lemma join_then_close_witness :
  ∃ st',
    run uuid_validate part_000
        [Message 1%nat 5 [] (SimplePeerJoinMessage example_room); Close 1%nat]
        member_and_guest
      = Returned st'
          [publish example_room
             (SimplePeerJoinedMessage
                (members member_and_guest example_room ++ ["B"]))]
    ∧ (∀ r, members st' r = members member_and_guest r)
    ∧ (is_Some (peersByRoom member_and_guest !! example_room) →
       peersByRoom st' = peersByRoom member_and_guest)
    ∧ (deletes_empty_rooms part_000 = true →
       peersByRoom st' = peersByRoom member_and_guest).
Proof.
  apply (join_then_close_restores_member_sets uuid_validate part_000
           member_and_guest 1%nat
           {| peerId := "B"; rooms := []; lastPing := 2; code := None |}).
  - apply member_and_guest_reachable.
  - reflexivity.
  - reflexivity.
  - vm_compute. reflexivity.
  - vm_compute. intros Hin. inversion Hin as [|? ? ? Hin']. inversion Hin'.
Defined.

(** X14. A [handshake-begin] followed by a [handshake-join] with the code it
    issued pairs the two sockets: the issuer receives the code, then the
    joiner and the issuer each receive one [handshake-complete] frame naming
    the other, and the Pairing Table is back to what it was before the
    code was issued. *)
Theorem begin_then_join_pairs_and_restores_the_table
    (validate : string → bool) (v : Variant) (st : Server) (ws ws2 : nat)
    (peer joiner : ServerPeer) (now now2 : Z) (random random2 : list double)
    (c : Z) :
  has_handshake v = true →
  sockets st !! ws = Some peer →
  sockets st !! ws2 = Some joiner →
  generate_code (peerByHandshake st) random = Some c →
  ∃ st',
    run validate v
        [Message ws now random HandshakeInitMessage;
         Message ws2 now2 random2 (HandshakeJoinMessage c)] st
      = Returned st'
          [ send ws (HandshakeResponseMessage (peerId peer) c);
            send ws2 (HandshakeCompleteMessage (peerId joiner) (peerId peer));
            send ws (HandshakeCompleteMessage (peerId peer) (peerId joiner)) ]
    ∧ peerByHandshake st' = peerByHandshake st.
Proof.
  intros Hv Hws Hws2 Hgen.
  pose proof (handshake_begin_issues validate v st ws peer now random c
                Hv Hws Hgen) as Hbegin.
  set (st1 := set_peerByHandshake (<[c := ws]> (peerByHandshake st))
                (set_socket ws (with_code c (with_lastPing now peer)) st))
    in Hbegin.
  assert (Hissuer : sockets st1 !! ws = Some (with_code c (with_lastPing now peer)))
    by apply lookup_insert_eq.
  assert (Hjoiner : ∃ joiner1, sockets st1 !! ws2 = Some joiner1
                               ∧ peerId joiner1 = peerId joiner).
  { destruct (decide (ws2 = ws)) as [->|Hne].
    - eexists. split; [exact Hissuer|]. simpl. congruence.
    - exists joiner. split; [|done]. simpl. by rewrite lookup_insert_ne. }
  destruct Hjoiner as (joiner1 & Hws2' & Hid).
  assert (Hc : peerByHandshake st1 !! c = Some ws) by apply lookup_insert_eq.
  pose proof (handshake_join_pending validate v st1 ws2 joiner1 ws _ now2 random2 c
                Hv Hws2' Hc Hissuer) as Hjoin.
  eexists. split.
  - rewrite (run_two validate v (Message ws now random HandshakeInitMessage)
               (Message ws2 now2 random2 (HandshakeJoinMessage c))
               _ _ _ _ _ Hbegin Hjoin).
    simpl. by rewrite Hid.
  - simpl. apply delete_insert_id.
    by destruct (generate_code_Some _ _ _ Hgen) as (? & ? & ? & _ & -> & ? & _).
Qed.

Lemma begin_then_join_witness :
  ∃ st',
    run uuid_validate part_000
        [Message 1%nat 9 [dyadic 1 1; dyadic 1 2] HandshakeInitMessage;
         Message 0%nat 10 [] (HandshakeJoinMessage 2499)] two_peers
      = Returned st'
          [ send 1%nat (HandshakeResponseMessage "B" 2499);
            send 0%nat (HandshakeCompleteMessage "A" "B");
            send 1%nat (HandshakeCompleteMessage "B" "A") ]
    ∧ peerByHandshake st' = peerByHandshake two_peers.
Proof.
  apply (begin_then_join_pairs_and_restores_the_table uuid_validate part_000
           two_peers 1%nat 0%nat
           {| peerId := "B"; rooms := []; lastPing := 2; code := None |}
           {| peerId := "A"; rooms := []; lastPing := 1; code := Some 4999 |}).
  - reflexivity.
  - reflexivity.
  - reflexivity.
  - vm_compute. reflexivity.
Defined.

(** X15. After a socket has disconnected, a [signal] frame addressed to its
    identifier is dropped: nothing is forwarded and nothing is sent back to
    the sender. *)
Theorem signal_to_a_closed_peer_is_dropped
    (validate : string → bool) (v : Variant) (st : Server) (ws ws2 : nat)
    (peer sender : ServerPeer) (now : Z) (random : list double)
    (room data : string) :
  sockets st !! ws = Some peer →
  sockets st !! ws2 = Some sender →
  ∃ st',
    run validate v
        [Close ws;
         Message ws2 now random
           (SimplePeerSignalMessage room (peerId sender) (peerId peer) data)] st
      = Returned st' [].
Proof.
  intros Hws Hws2.
  destruct (websocket_close_spec v st ws peer Hws)
    as (st1 & Hclose & Hsock & Hreg & _).
  assert (Hsignal : handle validate v
            (Message ws2 now random
               (SimplePeerSignalMessage room (peerId sender) (peerId peer) data))
            st1 = Returned (touch ws2 now st1) []).
  { simpl. unfold websocket_message, touch. rewrite Hsock, Hws2.
    unfold case_signal. simpl. rewrite decide_False by (by intros []).
    by rewrite Hreg, lookup_delete_eq. }
  eexists. by rewrite (run_two validate v (Close ws) _ _ _ _ _ _ Hclose Hsignal).
Qed.

Lemma signal_to_closed_witness :
  ∃ st',
    run uuid_validate part_000
        [Close 1%nat;
         Message 0%nat 9 []
           (SimplePeerSignalMessage example_room "A" "B" "offer")] two_peers
      = Returned st' [].
Proof.
  apply (signal_to_a_closed_peer_is_dropped uuid_validate part_000 two_peers
           1%nat 0%nat
           {| peerId := "B"; rooms := []; lastPing := 2; code := None |}
           {| peerId := "A"; rooms := []; lastPing := 1; code := Some 4999 |}).
  - reflexivity.
  - reflexivity.
Defined.

(** X16. After a socket has disconnected, the roster that the next joiner of
    one of its rooms triggers no longer lists its identifier: it lists the
    other members that were there, and the joiner. *)
Theorem roster_after_close_omits_the_closed_peer
    (validate : string → bool) (v : Variant) (st : Server) (ws ws2 : nat)
    (peer joiner : ServerPeer) (now : Z) (random : list double) (room : string) :
  sockets st !! ws = Some peer →
  sockets st !! ws2 = Some joiner →
  room ∈ rooms peer →
  peerId joiner ≠ peerId peer →
  validate room = true →
  ∃ st' roster,
    run validate v
        [Close ws; Message ws2 now random (SimplePeerJoinMessage room)] st
      = Returned st' [publish room (SimplePeerJoinedMessage roster)]
    ∧ (peerId peer ∉ roster)
    ∧ ∀ x, x ∈ roster
           ↔ (x ∈ members st room ∧ x ≠ peerId peer) ∨ x = peerId joiner.
Proof.
  intros Hws Hws2 Hroom Hne Hok.
  destruct (websocket_close_spec v st ws peer Hws)
    as (st1 & Hclose & Hsock & _ & Hmem & _).
  assert (Hjoin : ∃ st',
            handle validate v
              (Message ws2 now random (SimplePeerJoinMessage room)) st1
            = Returned st'
                [publish room
                   (SimplePeerJoinedMessage
                      (Set_add (peerId joiner) (members st1 room)))]).
  { simpl. unfold websocket_message. rewrite Hsock, Hws2, Hok, case_join_spec.
    by eexists. }
  destruct Hjoin as (st' & Hjoin).
  exists st', (Set_add (peerId joiner) (members st1 room)).
  split; [by rewrite (run_two validate v (Close ws) _ _ _ _ _ _ Hclose Hjoin)|].
  assert (Hroster : ∀ x, x ∈ Set_add (peerId joiner) (members st1 room)
            ↔ (x ∈ members st room ∧ x ≠ peerId peer) ∨ x = peerId joiner).
  { intros x. rewrite Set_add_elem, Hmem. split.
    - intros [[Hx Hnot]|Hx]; [left|by right]. split; [done|].
      intros ->. by apply Hnot.
    - intros [[Hx Hnot]|Hx]; [left|by right]. split; [done|]. by intros [_ ?]. }
  split; [|exact Hroster].
  intros [[_ Habs]|Habs]%Hroster; [done|]. by apply Hne.
Qed.

Lemma roster_after_close_witness :
  ∃ st' roster,
    run uuid_validate app_ts
        [Close 0%nat; Message 1%nat 9 [] (SimplePeerJoinMessage example_room)]
        member_and_guest
      = Returned st' [publish example_room (SimplePeerJoinedMessage roster)]
    ∧ ("A" ∉ roster)
    ∧ ∀ x, x ∈ roster
           ↔ (x ∈ members member_and_guest example_room ∧ x ≠ "A") ∨ x = "B".
Proof.
  apply (roster_after_close_omits_the_closed_peer uuid_validate app_ts
           member_and_guest 0%nat 1%nat
           {| peerId := "A"; rooms := [example_room]; lastPing := 1; code := None |}
           {| peerId := "B"; rooms := []; lastPing := 2; code := None |}).
  - reflexivity.
  - reflexivity.
  - apply list_elem_of_here.
  - discriminate.
  - vm_compute. reflexivity.
Defined.

(** ** Rosters and the current members of a room *)











